(** * parse_unity_output.py: summary extraction and exit-code selection

    A shallow embedding of [.github/scripts/parse_unity_output.py] and the
    properties its specification states about it.

    Conventions of the model.
    - A Python [str] is a list of code points; the model covers code points
      below 256 ([ascii]).  On that range [\d] is exactly [0-9] and [\s] is
      exactly the set on which [str.isspace] holds.
    - Python integers are [Z]; [int] on a digit string is base-10
      conversion, refused beyond the interpreter's limit on the number of
      digits (4300 unless the interpreter is told otherwise); [print]
      always succeeds.
    - Paths are POSIX paths: [Path(s)] is kept as the string [str(Path(s))].
    - The file system is a map from path strings to entries; calls to
      [Path.exists] and [Path.read_text] are recorded in a trace. *)

From Stdlib Require Import Ascii String ZArith NArith Lia Bool Arith List.
From Stdlib Require Import DecimalString DecimalZ Sorted.
Import ListNotations.

Set Implicit Arguments.

Local Open Scope Z_scope.

(** ** Texts and character classes *)

Definition text := list ascii.

Definition txt (s : string) : text := list_ascii_of_string s.

(** [\d] of a [str] pattern, on code points below 256. *)
Definition is_digit (c : ascii) : bool :=
  let n := N_of_ascii c in (48 <=? n)%N && (n <=? 57)%N.

(** [\s] of a [str] pattern, on code points below 256: TAB..CR, FS..US,
    space, NEL and NBSP. *)
Definition is_space (c : ascii) : bool :=
  let n := N_of_ascii c in
  ((9 <=? n)%N && (n <=? 13)%N) || ((28 <=? n)%N && (n <=? 32)%N)
  || (n =? 133)%N || (n =? 160)%N.

(** ** The regular-expression engine

    The pattern of the script is a sequence of three kinds of nodes: a
    literal, a greedy one-or-more repetition of a character class, and the
    same repetition inside a capturing group. *)

Inductive cclass := ClsDigit | ClsSpace.

Definition in_class (k : cclass) : ascii -> bool :=
  match k with ClsDigit => is_digit | ClsSpace => is_space end.

Inductive node :=
| Literal (l : text)
| Plus (k : cclass)
| GroupPlus (k : cclass).

(** [r"(\d+)\s+Tests\s+(\d+)\s+Failures\s+(\d+)\s+Ignored"] *)
Definition pattern : list node :=
  [ GroupPlus ClsDigit; Plus ClsSpace; Literal (txt "Tests"); Plus ClsSpace;
    GroupPlus ClsDigit; Plus ClsSpace; Literal (txt "Failures"); Plus ClsSpace;
    GroupPlus ClsDigit; Plus ClsSpace; Literal (txt "Ignored") ].

Fixpoint strip_prefix (l s : text) : option text :=
  match l, s with
  | [], _ => Some s
  | a :: l', b :: s' => if Ascii.eqb a b then strip_prefix l' s' else None
  | _ :: _, [] => None
  end.

Section Backtracking.
Variable R : Type.
Variable cls : ascii -> bool.

(** Greedy repetition with backtracking: take one more character of the
    class when possible and try the rest of the pattern from there; when
    that fails, give the character back and try the rest from here.
    [taken] is what the repetition holds so far, in reverse. *)
Fixpoint greedy (s : text) (taken : text) (k : text -> text -> option R)
  : option R :=
  match s with
  | c :: s' =>
      if cls c then
        match greedy s' (c :: taken) k with
        | Some r => Some r
        | None => k (rev taken) s
        end
      else k (rev taken) s
  | [] => k (rev taken) s
  end.

Definition plus (s : text) (k : text -> text -> option R) : option R :=
  match s with
  | c :: s' => if cls c then greedy s' [c] k else None
  | [] => None
  end.
End Backtracking.

(** Match the nodes [p] at the head of [s]; [groups] are the captures so
    far.  The result is the captures and the unconsumed text. *)
Fixpoint match_nodes (p : list node) (s : text) (groups : list text)
  : option (list text * text) :=
  match p with
  | [] => Some (groups, s)
  | Literal l :: p' =>
      match strip_prefix l s with
      | Some s' => match_nodes p' s' groups
      | None => None
      end
  | Plus k :: p' =>
      plus (in_class k) s (fun _ rest => match_nodes p' rest groups)
  | GroupPlus k :: p' =>
      plus (in_class k) s
        (fun taken rest => match_nodes p' rest (groups ++ [taken]))
  end.

(** A match object: its span and its captured groups. *)
Record rmatch := MkMatch {
  m_start : nat;
  m_end : nat;
  m_groups : list text
}.

(** The scan behind [re.findall]: try the pattern at the current position;
    on success record the match and resume at its end, otherwise move one
    character to the right.  [pos] is the offset of [s] in the content. *)
Fixpoint scan (fuel : nat) (pos : nat) (s : text) : list rmatch :=
  match fuel with
  | O => []
  | S fuel' =>
      match match_nodes pattern s [] with
      | Some (groups, rest) =>
          let e := (pos + (length s - length rest))%nat in
          MkMatch pos e groups :: scan fuel' e rest
      | None =>
          match s with
          | [] => []
          | _ :: s' => scan fuel' (S pos) s'
          end
      end
  end.

Definition finditer (content : text) : list rmatch :=
  scan (S (length content)) 0 content.

(** [re.findall(pattern, content)]: the groups of every match. *)
Definition findall (content : text) : list (list text) :=
  map m_groups (finditer content).

(** ** Exceptions and integers *)

Inductive exn :=
| FileNotFoundError (msg : string)
| ValueError (msg : string)
| OSError (msg : string).   (* an [OSError] that is not [FileNotFoundError] *)

Definition digit_value (c : ascii) : Z := Z.of_N (N_of_ascii c) - 48.

(** [str(n)] of an integer. *)
Definition str_of_int (n : Z) : string := NilZero.string_of_int (Z.to_int n).

(** [sys.int_info.default_max_str_digits]: the limit an interpreter starts
    with; the script never changes it. *)
Definition default_max_str_digits : nat := 4300.

Definition exceeds_limit_message (limit digits : nat) : string :=
  "Exceeds the limit (" ++ str_of_int (Z.of_nat limit)
  ++ " digits) for integer string conversion: value has "
  ++ str_of_int (Z.of_nat digits)
  ++ " digits; use sys.set_int_max_str_digits() to increase the limit".

(** [int(s)] on a string of decimal digits (the only strings the script
    passes to it), under the interpreter's limit on the number of digits
    ([0] switches the limit off; an interpreter accepts [0] and limits from
    640 upwards); anything else is a [ValueError]. *)
Definition py_int_limited (limit : nat) (s : text) : exn + Z :=
  match s with
  | [] => inl (ValueError "invalid literal for int() with base 10: ''")
  | _ :: _ =>
      if forallb is_digit s then
        if (0 <? limit)%nat && (limit <? length s)%nat
        then inl (ValueError (exceeds_limit_message limit (length s)))
        else inr (fold_left (fun acc c => 10 * acc + digit_value c) s 0)
      else inl (ValueError "invalid literal for int() with base 10")
  end.

Definition py_int : text -> exn + Z := py_int_limited default_max_str_digits.

Definition summary := (Z * Z * Z)%type.

(** Line 47: [int(tests), int(failures), int(ignored)], left to right. *)
Definition to_ints (limit : nat) (tests failures ignored : text)
  : exn + summary :=
  match py_int_limited limit tests with
  | inl e => inl e
  | inr t =>
      match py_int_limited limit failures with
      | inl e => inl e
      | inr f =>
          match py_int_limited limit ignored with
          | inl e => inl e
          | inr i => inr (t, f, i)
          end
      end
  end.

(** Lines 39-47 of the script: from the content to the summary, in an
    interpreter with the given limit on digits. *)
Definition extract_summary_with (limit : nat) (content : text)
  : exn + summary :=
  let matches := findall content in
  match matches with
  | [] => inl (ValueError "Unity test summary not found in output")
  | _ :: _ =>
      match last matches [] with
      | [tests; failures; ignored] => to_ints limit tests failures ignored
      | _ => inl (ValueError "not enough values to unpack")
      end
  end.

(** The extractor as the script runs it. *)
Definition extract_summary : text -> exn + summary :=
  extract_summary_with default_max_str_digits.

(** ** Paths *)

(** [s.lstrip(sep)] *)
Fixpoint lstrip (sep : ascii) (s : text) : text :=
  match s with
  | c :: s' => if Ascii.eqb c sep then lstrip sep s' else s
  | [] => []
  end.

(** [s.split(sep)] *)
Fixpoint split_on (sep : ascii) (s : text) : list text :=
  match s with
  | [] => [[]]
  | c :: s' =>
      if Ascii.eqb c sep then [] :: split_on sep s'
      else
        match split_on sep s' with
        | x :: xs => (c :: x) :: xs
        | [] => [[c]]
        end
  end.

(** [sep.join(parts)] *)
Fixpoint join (sep : ascii) (parts : list text) : text :=
  match parts with
  | [] => []
  | [x] => x
  | x :: xs => x ++ sep :: join sep xs
  end.

(** The root of a POSIX path and the rest of it: exactly two leading
    slashes are kept, any other number of them is one slash. *)
Definition splitroot (part : text) : text * text :=
  match part with
  | c :: _ =>
      if Ascii.eqb c "/" then
        let stripped := lstrip "/" part in
        if (length part - length stripped =? 2)%nat
        then (txt "//", stripped)
        else (txt "/", stripped)
      else ([], part)
  | [] => ([], [])
  end.

Definition is_component (x : text) : bool :=
  match x with
  | [] => false
  | [c] => negb (Ascii.eqb c ".")
  | _ => true
  end.

(** [str(Path(arg))]: empty and [.] components are dropped, and the empty
    path is [.]. *)
Definition Path (arg : string) : string :=
  let (root, rel) := splitroot (list_ascii_of_string arg) in
  let parts := filter is_component (split_on "/" rel) in
  match (root ++ join "/" parts)%list with
  | [] => "."%string
  | s => string_of_list_ascii s
  end.


(** ** The file system and the driver *)

(** What a path refers to.  [Unreadable] is a path that exists but whose
    [read_text] raises an [OSError] other than [FileNotFoundError] (a
    directory, a file without read permission); [Undecodable] is a file
    whose bytes [read_text] cannot decode ([UnicodeDecodeError], a subclass
    of [ValueError]). *)
Inductive entry :=
| Missing
| Unreadable (msg : string)
| Undecodable (msg : string)
| File (content : text).

Definition filesystem := string -> entry.

Inductive fs_event :=
| EvExists (path : string)
| EvReadText (path : string).

Definition path_exists (fs : filesystem) (p : string) : bool :=
  match fs p with Missing => false | _ => true end.

Definition read_text (fs : filesystem) (p : string) : exn + text :=
  match fs p with
  | Missing => inl (FileNotFoundError "No such file or directory")
  | Unreadable msg => inl (OSError msg)
  | Undecodable msg => inl (ValueError msg)
  | File content => inr content
  end.

(** [parse_unity_output(output_file)], with the file operations it
    performs. *)
Definition parse_unity_output (fs : filesystem) (output_file : string)
  : list fs_event * (exn + summary) :=
  if negb (path_exists fs output_file) then
    ([EvExists output_file],
     inl (FileNotFoundError ("Output file not found: " ++ output_file)))
  else
    match read_text fs output_file with
    | inl e => ([EvExists output_file; EvReadText output_file], inl e)
    | inr content =>
        ([EvExists output_file; EvReadText output_file],
         extract_summary content)
    end.

Definition nl : string := String (ascii_of_nat 10) EmptyString.

(** [print(s)] and [print(s, file=sys.stderr)] append [s] and a newline. *)
Definition print (stream s : string) : string := stream ++ s ++ nl.

(** What a run of the script leaves behind. *)
Record run := MkRun {
  stdout : string;
  stderr : string;
  exit_code : Z;
  fs_trace : list fs_event
}.

Definition usage : string := "Usage: parse_unity_output.py <qemu_output.log>".

(** The report printed before the banner (lines 60-64). *)
Definition report (tests failures ignored : Z) : string :=
  let out := print "" "Test Results:" in
  let out := print out ("  Total Tests: " ++ str_of_int tests) in
  let out := print out ("  Failures: " ++ str_of_int failures) in
  let out := print out ("  Ignored: " ++ str_of_int ignored) in
  print out "".

(** The diagnostic printed for a [ValueError] (lines 77-81). *)
Definition diagnostic (e : string) : string :=
  let err := print "" ("Error: " ++ e) in
  let err := print err (nl ++ "This usually means:") in
  let err := print err "  - Tests didn't complete (QEMU timeout/crash)" in
  let err := print err "  - Unity framework wasn't properly initialized" in
  print err "  - Output was truncated".

(** [main()], given [sys.argv] and the file system.  An exception that no
    [except] clause catches ends the interpreter with a traceback on the
    standard error stream and exit status 1. *)
Definition main (fs : filesystem) (argv : list string) : run :=
  if negb (length argv =? 2)%nat then
    MkRun "" (print "" usage) 2 []
  else
    let output_file := Path (nth 1 argv ""%string) in
    let '(trace, result) := parse_unity_output fs output_file in
    match result with
    | inr (tests, failures, ignored) =>
        let out := report tests failures ignored in
        if failures =? 0 then
          MkRun (print out "✅ All tests passed!") "" 0 trace
        else
          MkRun (print out ("❌ " ++ str_of_int failures ++ " test(s) failed"))
                "" 1 trace
    | inl (FileNotFoundError e) =>
        MkRun "" (print "" ("Error: " ++ e)) 2 trace
    | inl (ValueError e) =>
        MkRun "" (diagnostic e) 1 trace
    | inl (OSError e) =>
        MkRun "" (print (print "" "Traceback (most recent call last):") e)
              1 trace
    end.

(** ** Notions of the specification *)

(** A non-empty run of characters of one class. *)
Definition run_of (cls : ascii -> bool) (t : text) : Prop :=
  t <> [] /\ forallb cls t = true.

(** [b] has the shape [<integer> Tests <integer> Failures <integer> Ignored]
    with the digit sequences [d1], [d2], [d3] and whitespace separators. *)
Definition shaped (b d1 d2 d3 : text) : Prop :=
  exists w1 w2 w3 w4 w5,
    b = d1 ++ w1 ++ txt "Tests" ++ w2 ++ d2 ++ w3 ++ txt "Failures" ++ w4
           ++ d3 ++ w5 ++ txt "Ignored"
    /\ run_of is_digit d1 /\ run_of is_digit d2 /\ run_of is_digit d3
    /\ run_of is_space w1 /\ run_of is_space w2 /\ run_of is_space w3
    /\ run_of is_space w4 /\ run_of is_space w5.

(** [b] is the substring of [content] that starts at offset [q]. *)
Definition occurs_at (content : text) (q : nat) (b : text) : Prop :=
  exists pre post, content = pre ++ b ++ post /\ length pre = q.

(** A substring of the shape at offset [q], with its three digit
    sequences. *)
Definition candidate (content : text) (q : nat) (d1 d2 d3 : text) : Prop :=
  exists b, occurs_at content q b /\ shaped b d1 d2 d3.

(** The character just before offset [q] is not a digit (or [q] is the
    start of the content): the first integer is not cut out of a longer
    digit sequence. *)
Definition whole_number_at (content : text) (q : nat) : Prop :=
  forall pre c rest, content = pre ++ c :: rest -> S (length pre) = q ->
                     is_digit c = false.

(** An occurrence of the pattern: a substring of the shape whose first
    integer is a whole number. *)
Definition occurrence (content : text) (q : nat) (d1 d2 d3 : text) : Prop :=
  candidate content q d1 d2 d3 /\ whole_number_at content q.

(** The base-10 value of a digit sequence, most significant digit first. *)
Fixpoint decimal_value (ds : text) : Z :=
  match ds with
  | [] => 0
  | c :: ds' => digit_value c * 10 ^ Z.of_nat (length ds') + decimal_value ds'
  end.

Definition summary_of (d1 d2 d3 : text) : summary :=
  (decimal_value d1, decimal_value d2, decimal_value d3).

Definition summary_not_found : exn :=
  ValueError "Unity test summary not found in output".




(** The path the script works on: [Path(sys.argv[1])]. *)
Definition path_arg (argv : list string) : string :=
  Path (nth 1 argv ""%string).



(** A digit sequence that [int] accepts under the limit. *)
Definition fits (limit : nat) (d : text) : Prop :=
  limit = 0%nat \/ (length d <= limit)%nat.



(** The banner that closes the report. *)
Definition banner (failures : Z) : string :=
  if failures =? 0 then "✅ All tests passed!"
  else "❌ " ++ str_of_int failures ++ " test(s) failed".

(** ** Sample logs and a sample file system *)

Definition log_pass : text := txt "10 Tests 0 Failures 0 Ignored".
Definition log_fail : text := txt "10 Tests 2 Failures 1 Ignored".
Definition log_two : text :=
  txt ("Running tests..." ++ nl ++ "5 Tests 1 Failures 0 Ignored" ++ nl
       ++ "(extra noise)" ++ nl ++ "5 Tests 0 Failures 0 Ignored").
Definition log_crash : text := txt ("Running tests..." ++ nl).
Definition log_overlap : text := txt "12 Tests 3 Failures 4 Ignored".
Definition log_lines : text :=
  txt ("I (312) app: 7" ++ nl ++ "Tests" ++ nl ++ nl
       ++ "0 Failures   1 Ignored OK").

Definition sample_fs : filesystem :=
  fun p =>
    if String.eqb p "pass.log" then File log_pass
    else if String.eqb p "fail.log" then File log_fail
    else if String.eqb p "two.log" then File log_two
    else if String.eqb p "crash.log" then File log_crash
    else if String.eqb p "build" then
      Unreadable "IsADirectoryError: [Errno 21] Is a directory: 'build'"
    else if String.eqb p "qemu.bin" then
      Undecodable "'utf-8' codec can't decode byte 0xff in position 0: invalid start byte"
    else Missing.

Definition prog : string := "parse_unity_output.py".

(** ** Auxiliary notions *)

(** The head of a text is not in the class (the text may be empty). *)
Definition stops (cls : ascii -> bool) (s : text) : Prop :=
  match s with [] => True | c :: _ => cls c = false end.

(** [m] ends before [m'] starts. *)
Definition before (m m' : rmatch) : Prop := (m_end m <= m_start m')%nat.

(** No non-empty suffix of [t], followed by [tail], starts a match. *)
Definition dead (t tail : text) : Prop :=
  forall x y, t = x ++ y -> y <> [] -> match_nodes pattern (y ++ tail) [] = None.

(** Every run of digits that ends [pre], put in front of [s], fails to
    match: the scan has already been through the digits before [s]. *)
Definition digits_tried (pre s : text) : Prop :=
  forall pre0 ds, pre = pre0 ++ ds -> run_of is_digit ds ->
                  match_nodes pattern (ds ++ s) [] = None.

(** [pre] is empty or ends with a character that is not a digit. *)
Definition ends_without_digit (pre : text) : Prop :=
  forall p c, pre = p ++ [c] -> is_digit c = false.

(** The shortest summary, [0 Tests 0 Failures 0 Ignored], has 28
    characters. *)
Definition min_summary_length : nat := 28.

(** A digit sequence without its leading zeros (the last digit stays). *)
Fixpoint strip_zeros (ds : text) : text :=
  match ds with
  | c :: (_ :: _) as ds' => if Ascii.eqb c "0" then strip_zeros ds' else ds
  | _ => ds
  end.

(** [keyword] occurs in [content] as it is written. *)
Definition has_keyword (keyword : string) (content : text) : Prop :=
  exists pre post, content = pre ++ txt keyword ++ post.

(** A log whose only digits are those of one summary [b], placed after
    [pre]. *)
Definition log_after_boot : text :=
  txt ("rst:0x1 (POWERON),boot:0x8" ++ nl ++ "..." ++ nl
       ++ "-----------------------" ++ nl).

(** A summary written with leading zeros, and a file system that holds it
    under every path. *)
Definition log_zeros : text := txt "007 Tests 00 Failures 1 Ignored".

(** A number of 4301 digits, one more than [int] accepts; a summary whose
    tests count is that number, alone and after another summary; a file
    system that holds the first under every path. *)
Definition nines : text := repeat "9"%char 4301.
Definition log_huge : text := nines ++ txt " Tests 0 Failures 0 Ignored".
Definition log_huge_last : text := log_fail ++ ascii_of_nat 10 :: log_huge.
Definition zeros_fs : filesystem := fun _ => File log_zeros.

(** A file system that agrees with [sample_fs] on [pass.log] only. *)
Definition other_fs : filesystem :=
  fun p => if String.eqb p "pass.log" then File log_pass
           else Unreadable "PermissionError: [Errno 13] Permission denied".

(** * Properties *)

(** ** Character classes *)

Lemma digit_not_space c : is_digit c = true -> is_space c = false.
Proof.
  unfold is_digit, is_space. intros H.
  apply andb_true_iff in H. destruct H as [H1 H2].
  apply N.leb_le in H1. apply N.leb_le in H2.
  repeat rewrite orb_false_iff. repeat rewrite andb_false_iff.
  repeat rewrite N.leb_gt. repeat rewrite N.eqb_neq. lia.
Qed.

Lemma space_not_digit c : is_space c = true -> is_digit c = false.
Proof.
  intros H. destruct (is_digit c) eqn:E; [|reflexivity].
  apply digit_not_space in E. congruence.
Qed.

Lemma run_head cls t s :
  run_of cls t -> exists c t', t ++ s = c :: t' ++ s /\ cls c = true.
Proof.
  intros [Hne Hall]. destruct t as [|c t']; [congruence|].
  simpl in Hall. apply andb_true_iff in Hall. exists c, t'. tauto.
Qed.

Lemma stops_digit_run cls t s :
  (forall c, is_digit c = true -> cls c = false) ->
  run_of is_digit t -> stops cls (t ++ s).
Proof.
  intros Hd Hr. destruct (run_head s Hr) as (c & t' & -> & Hc).
  simpl. auto.
Qed.

Lemma stops_space_run t s : run_of is_space t -> stops is_digit (t ++ s).
Proof.
  intros Hr. destruct (run_head s Hr) as (c & t' & -> & Hc).
  simpl. now apply space_not_digit.
Qed.

(** ** The matcher *)

Lemma strip_prefix_app l s : strip_prefix l (l ++ s) = Some s.
Proof.
  induction l as [|a l IH]; simpl; [reflexivity|].
  now rewrite Ascii.eqb_refl.
Qed.

Lemma strip_prefix_inv l : forall s s',
  strip_prefix l s = Some s' -> s = l ++ s'.
Proof.
  induction l as [|a l IH]; simpl; intros s s' H.
  - congruence.
  - destruct s as [|b s]; [discriminate|].
    destruct (Ascii.eqb a b) eqn:E; [|discriminate].
    apply Ascii.eqb_eq in E. subst b. f_equal. now apply IH.
Qed.

Section BacktrackingFacts.
Variable R : Type.
Variable cls : ascii -> bool.
Implicit Types (k : text -> text -> option R).

(** A successful repetition hands the continuation a split of the text
    into characters of the class and the rest. *)
Lemma greedy_sound k : forall s taken r,
  greedy cls s taken k = Some r ->
  exists t rest, s = t ++ rest /\ forallb cls t = true
                 /\ k (rev taken ++ t) rest = Some r.
Proof.
  induction s as [|c s IH]; simpl; intros taken r H.
  - exists [], []. simpl. rewrite app_nil_r. auto.
  - destruct (cls c) eqn:Ec.
    + destruct (greedy cls s (c :: taken) k) eqn:Eg.
      * inversion H; subst. apply IH in Eg.
        destruct Eg as (t & rest & -> & Hall & Hk).
        exists (c :: t), rest. simpl in *. rewrite Ec, Hall.
        rewrite <- app_assoc in Hk. auto.
      * exists [], (c :: s). simpl. rewrite app_nil_r. auto.
    + exists [], (c :: s). simpl. rewrite app_nil_r. auto.
Qed.

Lemma plus_sound k s r :
  plus cls s k = Some r ->
  exists t rest, s = t ++ rest /\ run_of cls t /\ k t rest = Some r.
Proof.
  unfold plus. destruct s as [|c s]; [discriminate|].
  destruct (cls c) eqn:Ec; [|discriminate]. intros H.
  apply greedy_sound in H. destruct H as (t & rest & -> & Hall & Hk).
  exists (c :: t), rest. simpl in Hk.
  split; [reflexivity|]. split; [|exact Hk].
  split; [discriminate|]. simpl. now rewrite Ec.
Qed.

(** When the continuation accepts the longest split, that is the split
    the repetition settles on. *)
Lemma greedy_longest k : forall t taken rest r,
  forallb cls t = true -> stops cls rest ->
  k (rev taken ++ t) rest = Some r ->
  greedy cls (t ++ rest) taken k = Some r.
Proof.
  induction t as [|c t IH]; simpl; intros taken rest r Hall Hstop Hk.
  - rewrite app_nil_r in Hk. destruct rest as [|c rest]; simpl; auto.
    simpl in Hstop. now rewrite Hstop.
  - apply andb_true_iff in Hall. destruct Hall as [Hc Hall].
    rewrite Hc. rewrite (IH (c :: taken) rest r); auto.
    simpl. now rewrite <- app_assoc.
Qed.

Lemma plus_longest k t rest r :
  run_of cls t -> stops cls rest -> k t rest = Some r ->
  plus cls (t ++ rest) k = Some r.
Proof.
  intros [Hne Hall] Hstop Hk. destruct t as [|c t]; [congruence|].
  simpl in *. apply andb_true_iff in Hall. destruct Hall as [Hc Hall].
  rewrite Hc. now apply greedy_longest.
Qed.
End BacktrackingFacts.

Ltac plus_step H t Hr :=
  let r := fresh "r" in
  apply plus_sound in H; destruct H as (t & r & -> & Hr & H).

Ltac literal_step H :=
  let E := fresh "E" in
  match type of H with
  | match strip_prefix ?l ?s with _ => _ end = _ =>
      destruct (strip_prefix l s) eqn:E; [|discriminate H];
      apply strip_prefix_inv in E; subst s
  end.

(** What the pattern accepts at the head of a text is a substring of the
    shape, and the captures are its three digit sequences. *)
Lemma match_pattern_sound s gs rest :
  match_nodes pattern s [] = Some (gs, rest) ->
  exists b d1 d2 d3, s = b ++ rest /\ shaped b d1 d2 d3 /\ gs = [d1; d2; d3].
Proof.
  unfold pattern. cbn [match_nodes in_class]. intros H.
  plus_step H d1 Hd1. plus_step H w1 Hw1. literal_step H.
  plus_step H w2 Hw2. plus_step H d2 Hd2. plus_step H w3 Hw3. literal_step H.
  plus_step H w4 Hw4. plus_step H d3 Hd3. plus_step H w5 Hw5. literal_step H.
  inversion H; subst; clear H.
  exists (d1 ++ w1 ++ txt "Tests" ++ w2 ++ d2 ++ w3 ++ txt "Failures" ++ w4
            ++ d3 ++ w5 ++ txt "Ignored"), d1, d2, d3.
  split; [now repeat rewrite <- app_assoc|].
  split; [|reflexivity].
  exists w1, w2, w3, w4, w5. tauto.
Qed.

(** Conversely, a substring of the shape at the head of a text is accepted,
    with exactly its digit sequences as captures. *)
Lemma match_pattern_complete b d1 d2 d3 rest :
  shaped b d1 d2 d3 ->
  match_nodes pattern (b ++ rest) [] = Some ([d1; d2; d3], rest).
Proof.
  intros (w1 & w2 & w3 & w4 & w5 & -> & Hd1 & Hd2 & Hd3
          & Hw1 & Hw2 & Hw3 & Hw4 & Hw5).
  unfold pattern. cbn [match_nodes in_class].
  repeat rewrite <- app_assoc.
  apply plus_longest; [assumption | now apply stops_space_run |].
  apply plus_longest; [assumption | reflexivity |].
  rewrite strip_prefix_app.
  apply plus_longest;
    [assumption | apply stops_digit_run; auto using digit_not_space |].
  apply plus_longest; [assumption | now apply stops_space_run |].
  apply plus_longest; [assumption | reflexivity |].
  rewrite strip_prefix_app.
  apply plus_longest;
    [assumption | apply stops_digit_run; auto using digit_not_space |].
  apply plus_longest; [assumption | now apply stops_space_run |].
  apply plus_longest; [assumption | reflexivity |].
  rewrite strip_prefix_app. reflexivity.
Qed.

(** A substring of the shape is never empty, starts with a digit and ends
    with the last letter of [Ignored]. *)
Lemma shaped_length b d1 d2 d3 : shaped b d1 d2 d3 -> (0 < length b)%nat.
Proof.
  intros (w1 & w2 & w3 & w4 & w5 & -> & [Hne _] & _).
  destruct d1; [congruence|]. simpl. lia.
Qed.

Lemma shaped_head b d1 d2 d3 :
  shaped b d1 d2 d3 -> exists c b', b = c :: b' /\ is_digit c = true.
Proof.
  intros (w1 & w2 & w3 & w4 & w5 & -> & Hd1 & _).
  destruct (run_head (w1 ++ txt "Tests" ++ w2 ++ d2 ++ w3 ++ txt "Failures"
                        ++ w4 ++ d3 ++ w5 ++ txt "Ignored") Hd1)
    as (c & t' & -> & Hc).
  eauto.
Qed.

Lemma match_consumes s gs rest :
  match_nodes pattern s [] = Some (gs, rest) ->
  exists b, s = b ++ rest /\ (0 < length b)%nat.
Proof.
  intros H. apply match_pattern_sound in H.
  destruct H as (b & d1 & d2 & d3 & -> & Hs & _).
  exists b. split; [reflexivity|]. eapply shaped_length; eauto.
Qed.

(** ** The scan *)

Lemma app_split_left (A : Type) : forall (b mid rest tail : list A),
  b ++ rest = mid ++ tail -> (length b <= length mid)%nat ->
  exists mid', mid = b ++ mid' /\ rest = mid' ++ tail.
Proof.
  induction b as [|x b IH]; simpl; intros mid rest tail H Hlen.
  - exists mid. auto.
  - destruct mid as [|y mid]; simpl in *; [lia|].
    inversion H; subst.
    destruct (IH mid rest tail) as (mid' & -> & ->); auto; [lia|].
    exists mid'. auto.
Qed.

Lemma scan_S fuel pos s :
  scan (S fuel) pos s =
  match match_nodes pattern s [] with
  | Some (groups, rest) =>
      MkMatch pos (pos + (length s - length rest)) groups
        :: scan fuel (pos + (length s - length rest)) rest
  | None => match s with [] => [] | _ :: s' => scan fuel (S pos) s' end
  end.
Proof. reflexivity. Qed.

(** Any fuel above the length of the text gives the same scan: the scan of
    [finditer] never runs out. *)
Lemma scan_fuel : forall f1 f2 pos s,
  (length s < f1)%nat -> (length s < f2)%nat -> scan f1 pos s = scan f2 pos s.
Proof.
  induction f1 as [|f1 IH]; intros f2 pos s H1 H2; [lia|].
  destruct f2 as [|f2]; [lia|]. rewrite !scan_S.
  destruct (match_nodes pattern s []) as [[gs rest]|] eqn:E.
  - apply match_consumes in E. destruct E as (b & -> & Hb).
    rewrite length_app in *. f_equal. apply IH; lia.
  - destruct s as [|c s]; [reflexivity|]. simpl in *. apply IH; lia.
Qed.

(** Every match of the scan is a substring of the shape, located at the
    offsets the match reports. *)
Lemma scan_sound : forall fuel pos s m,
  (length s < fuel)%nat -> In m (scan fuel pos s) ->
  exists mid b post d1 d2 d3,
    s = mid ++ b ++ post /\ shaped b d1 d2 d3
    /\ m_start m = (pos + length mid)%nat
    /\ m_end m = (m_start m + length b)%nat
    /\ m_groups m = [d1; d2; d3].
Proof.
  induction fuel as [|fuel IH]; intros pos s m Hf Hin; [lia|].
  rewrite scan_S in Hin.
  destruct (match_nodes pattern s []) as [[gs rest]|] eqn:E.
  - apply match_pattern_sound in E.
    destruct E as (b & d1 & d2 & d3 & -> & Hs & ->).
    assert (Hlen : (length (b ++ rest) - length rest = length b)%nat)
      by (rewrite length_app; lia).
    pose proof (shaped_length Hs) as Hb.
    rewrite Hlen in Hin. destruct Hin as [<- | Hin].
    + exists [], b, rest, d1, d2, d3. simpl. repeat split; auto.
    + apply IH in Hin; [|rewrite length_app in Hf; lia].
      destruct Hin as (mid & b' & post & e1 & e2 & e3
                       & -> & Hs' & Hst & Hen & Hg).
      exists (b ++ mid), b', post, e1, e2, e3.
      rewrite <- app_assoc, length_app. repeat split; auto; lia.
  - destruct s as [|c s]; [contradiction|].
    apply IH in Hin; [|simpl in Hf; lia].
    destruct Hin as (mid & b' & post & e1 & e2 & e3
                     & -> & Hs' & Hst & Hen & Hg).
    exists (c :: mid), b', post, e1, e2, e3.
    simpl. repeat split; auto; lia.
Qed.

(** Every substring of the shape is covered by a match of the scan: it
    starts inside the span of one. *)
Lemma scan_complete : forall fuel pos s mid b post d1 d2 d3,
  (length s < fuel)%nat -> s = mid ++ b ++ post -> shaped b d1 d2 d3 ->
  exists m, In m (scan fuel pos s)
            /\ (m_start m <= pos + length mid < m_end m)%nat.
Proof.
  induction fuel as [|fuel IH];
    intros pos s mid b post d1 d2 d3 Hf Hs Hsh; [lia|].
  rewrite scan_S.
  destruct (match_nodes pattern s []) as [[gs rest]|] eqn:E.
  - apply match_consumes in E. destruct E as (b0 & E & Hb0).
    assert (Hlen : (length s - length rest = length b0)%nat)
      by (rewrite E, length_app; lia).
    rewrite Hlen.
    destruct (Nat.lt_ge_cases (length mid) (length b0)) as [Hlt | Hge].
    + eexists. split; [left; reflexivity|]. simpl. lia.
    + rewrite E in Hs. apply app_split_left in Hs; [|assumption].
      destruct Hs as (mid' & -> & Hrest).
      destruct (IH (pos + length b0)%nat rest mid' b post d1 d2 d3)
        as (m & Hin & Hm); auto.
      { rewrite E, length_app in Hf. lia. }
      exists m. split; [now right|]. rewrite length_app. lia.
  - destruct mid as [|c mid].
    + simpl in Hs. subst s.
      rewrite (match_pattern_complete post Hsh) in E. discriminate.
    + subst s. simpl.
      destruct (IH (S pos) (mid ++ b ++ post) mid b post d1 d2 d3)
        as (m & Hin & Hm); auto.
      { simpl in Hf. lia. }
      exists m. split; [assumption|]. simpl. lia.
Qed.

(** The matches come in textual order and do not overlap. *)
Lemma scan_sorted : forall fuel pos s,
  (length s < fuel)%nat ->
  Forall (fun m => (pos <= m_start m < m_end m)%nat) (scan fuel pos s)
  /\ StronglySorted before (scan fuel pos s).
Proof.
  induction fuel as [|fuel IH]; intros pos s Hf; [lia|].
  rewrite scan_S.
  destruct (match_nodes pattern s []) as [[gs rest]|] eqn:E.
  - apply match_consumes in E. destruct E as (b0 & E & Hb0).
    assert (Hlen : (length s - length rest = length b0)%nat)
      by (rewrite E, length_app; lia).
    rewrite Hlen.
    destruct (IH (pos + length b0)%nat rest) as [Hall Hsorted].
    { rewrite E, length_app in Hf. lia. }
    split.
    + constructor; [simpl; lia|].
      eapply Forall_impl; [|exact Hall]. simpl. intros; lia.
    + constructor; [assumption|].
      eapply Forall_impl; [|exact Hall]. unfold before. simpl. intros; lia.
  - destruct s as [|c s]; [split; constructor|].
    destruct (IH (S pos) s) as [Hall Hsorted]; [simpl in Hf; lia|].
    split; [|assumption].
    eapply Forall_impl; [|exact Hall]. simpl. intros; lia.
Qed.

(** ** [finditer] and [findall] *)

Lemma finditer_sound content m :
  In m (finditer content) ->
  exists b d1 d2 d3,
    occurs_at content (m_start m) b /\ shaped b d1 d2 d3
    /\ m_end m = (m_start m + length b)%nat /\ m_groups m = [d1; d2; d3].
Proof.
  intros Hin. apply scan_sound in Hin; [|lia].
  destruct Hin as (mid & b & post & d1 & d2 & d3 & -> & Hs & Hst & Hen & Hg).
  exists b, d1, d2, d3. repeat split; auto.
  exists mid, post. auto.
Qed.

Lemma finditer_candidate content m :
  In m (finditer content) ->
  exists d1 d2 d3,
    candidate content (m_start m) d1 d2 d3 /\ m_groups m = [d1; d2; d3].
Proof.
  intros Hin. apply finditer_sound in Hin.
  destruct Hin as (b & d1 & d2 & d3 & Hocc & Hs & _ & Hg).
  exists d1, d2, d3. split; [|assumption]. exists b. auto.
Qed.

Lemma finditer_complete content q d1 d2 d3 :
  candidate content q d1 d2 d3 ->
  exists m, In m (finditer content) /\ (m_start m <= q < m_end m)%nat.
Proof.
  intros (b & (pre & post & -> & <-) & Hs).
  destruct (@scan_complete (S (length (pre ++ b ++ post))) 0
              (pre ++ b ++ post) pre b post d1 d2 d3) as (m & Hin & Hm);
    auto.
  exists m. auto.
Qed.

Lemma finditer_sorted content : StronglySorted before (finditer content).
Proof. apply scan_sorted. lia. Qed.

Lemma finditer_span content m :
  In m (finditer content) -> (m_start m < m_end m)%nat.
Proof.
  intros Hin. destruct (@scan_sorted (S (length content)) 0 content) as [H _];
    [lia|].
  rewrite Forall_forall in H. apply H in Hin. lia.
Qed.

(** No occurrence at all is the same as an empty [findall]. *)
Lemma findall_nil_iff content :
  findall content = [] <-> (forall q d1 d2 d3, ~ candidate content q d1 d2 d3).
Proof.
  unfold findall. split.
  - intros H q d1 d2 d3 Hc. apply finditer_complete in Hc.
    destruct Hc as (m & Hin & _).
    apply map_eq_nil in H. rewrite H in Hin. contradiction.
  - intros H. destruct (finditer content) as [|m ms] eqn:E; [reflexivity|].
    exfalso. destruct (@finditer_candidate content m) as (d1 & d2 & d3 & Hc & _).
    { rewrite E. now left. }
    eapply H; eauto.
Qed.

(** Earlier matches start strictly before the last one. *)
Lemma sorted_last_greatest ms m :
  StronglySorted before (ms ++ [m]) ->
  (forall x, In x (ms ++ [m]) -> (m_start x < m_end x)%nat) ->
  forall m', In m' ms -> (m_end m' <= m_start m)%nat /\ (m_start m' < m_start m)%nat.
Proof.
  induction ms as [|a ms IH]; simpl; intros Hs Hspan m' Hin; [contradiction|].
  inversion Hs as [|? ? Hs' Hall]; subst.
  destruct Hin as [-> | Hin].
  - rewrite Forall_forall in Hall.
    assert (Hb : before m' m) by (apply Hall, in_or_app; right; now left).
    unfold before in Hb. specialize (Hspan m' (or_introl eq_refl)). lia.
  - apply IH; auto.
Qed.

(** ** [int] *)

Lemma digit_value_range c : is_digit c = true -> 0 <= digit_value c <= 9.
Proof.
  unfold is_digit, digit_value. intros H.
  apply andb_true_iff in H. destruct H as [H1 H2].
  apply N.leb_le in H1. apply N.leb_le in H2. lia.
Qed.

Lemma horner_decimal : forall ds acc,
  fold_left (fun a c => 10 * a + digit_value c) ds acc
  = acc * 10 ^ Z.of_nat (length ds) + decimal_value ds.
Proof.
  induction ds as [|c ds IH]; intros acc; cbn [fold_left].
  - simpl. lia.
  - rewrite IH. cbn [decimal_value length].
    rewrite Nat2Z.inj_succ, Z.pow_succ_r by lia. ring.
Qed.

Lemma decimal_value_nonneg ds : forallb is_digit ds = true -> 0 <= decimal_value ds.
Proof.
  induction ds as [|c ds IH]; simpl; intros H; [lia|].
  apply andb_true_iff in H. destruct H as [Hc Hds].
  pose proof (@digit_value_range c Hc). specialize (IH Hds).
  assert (0 <= 10 ^ Z.of_nat (length ds)) by (apply Z.pow_nonneg; lia).
  nia.
Qed.

(** On a matched digit sequence within the limit, [int] is its base-10
    value. *)
Lemma py_int_fits limit ds :
  run_of is_digit ds -> fits limit ds ->
  py_int_limited limit ds = inr (decimal_value ds).
Proof.
  intros [Hne Hall] Hfit. unfold py_int_limited.
  destruct ds as [|c ds]; [congruence|]. rewrite Hall.
  assert (E : ((0 <? limit)%nat && (limit <? length (c :: ds))%nat) = false).
  { apply andb_false_iff. destruct Hfit as [-> | Hle].
    - left. reflexivity.
    - right. apply Nat.ltb_ge. exact Hle. }
  rewrite E, horner_decimal. reflexivity.
Qed.

(** Beyond the limit, [int] raises. *)
Lemma py_int_exceeds limit ds :
  run_of is_digit ds -> (0 < limit < length ds)%nat ->
  py_int_limited limit ds
  = inl (ValueError (exceeds_limit_message limit (length ds))).
Proof.
  intros [Hne Hall] [H0 Hlt]. unfold py_int_limited.
  destruct ds as [|c ds]; [congruence|]. rewrite Hall.
  apply Nat.ltb_lt in H0. apply Nat.ltb_lt in Hlt.
  now rewrite H0, Hlt.
Qed.

Lemma fits_or_exceeds limit ds :
  fits limit ds \/ (0 < limit < length ds)%nat.
Proof. unfold fits. lia. Qed.

Lemma py_int_error limit s e :
  py_int_limited limit s = inl e -> exists msg, e = ValueError msg.
Proof.
  unfold py_int_limited. destruct s as [|c s]; [intros [= <-]; eauto|].
  destruct (forallb is_digit (c :: s)); [|intros [= <-]; eauto].
  destruct ((0 <? limit)%nat && (limit <? length (c :: s))%nat);
    [intros [= <-]; eauto | discriminate].
Qed.

Lemma to_ints_fits limit d1 d2 d3 :
  run_of is_digit d1 -> run_of is_digit d2 -> run_of is_digit d3 ->
  fits limit d1 -> fits limit d2 -> fits limit d3 ->
  to_ints limit d1 d2 d3 = inr (summary_of d1 d2 d3).
Proof.
  intros H1 H2 H3 F1 F2 F3. unfold to_ints.
  now rewrite (py_int_fits H1 F1), (py_int_fits H2 F2), (py_int_fits H3 F3).
Qed.

(** When one of the three numbers is beyond the limit, the conversion
    raises the error of the first such number. *)
Lemma to_ints_exceeds limit d1 d2 d3 :
  run_of is_digit d1 -> run_of is_digit d2 -> run_of is_digit d3 ->
  ~ (fits limit d1 /\ fits limit d2 /\ fits limit d3) ->
  exists d, (d = d1 \/ d = d2 \/ d = d3) /\ (0 < limit < length d)%nat
            /\ to_ints limit d1 d2 d3
               = inl (ValueError (exceeds_limit_message limit (length d))).
Proof.
  intros H1 H2 H3 Hno. unfold to_ints.
  destruct (fits_or_exceeds limit d1) as [F1 | E1].
  2: { exists d1. rewrite (py_int_exceeds H1 E1). auto. }
  rewrite (py_int_fits H1 F1).
  destruct (fits_or_exceeds limit d2) as [F2 | E2].
  2: { exists d2. rewrite (py_int_exceeds H2 E2). auto. }
  rewrite (py_int_fits H2 F2).
  destruct (fits_or_exceeds limit d3) as [F3 | E3]; [tauto|].
  exists d3. rewrite (py_int_exceeds H3 E3). auto.
Qed.

Lemma to_ints_inr limit d1 d2 d3 x :
  run_of is_digit d1 -> run_of is_digit d2 -> run_of is_digit d3 ->
  to_ints limit d1 d2 d3 = inr x ->
  x = summary_of d1 d2 d3
  /\ fits limit d1 /\ fits limit d2 /\ fits limit d3.
Proof.
  intros H1 H2 H3 E.
  destruct (fits_or_exceeds limit d1) as [F1 | E1];
    [|unfold to_ints in E; rewrite (py_int_exceeds H1 E1) in E; discriminate].
  destruct (fits_or_exceeds limit d2) as [F2 | E2];
    [|unfold to_ints in E;
      rewrite (py_int_fits H1 F1), (py_int_exceeds H2 E2) in E; discriminate].
  destruct (fits_or_exceeds limit d3) as [F3 | E3];
    [|unfold to_ints in E;
      rewrite (py_int_fits H1 F1), (py_int_fits H2 F2),
        (py_int_exceeds H3 E3) in E; discriminate].
  rewrite (to_ints_fits H1 H2 H3 F1 F2 F3) in E. inversion E. auto.
Qed.

Lemma shaped_runs b d1 d2 d3 :
  shaped b d1 d2 d3 ->
  run_of is_digit d1 /\ run_of is_digit d2 /\ run_of is_digit d3.
Proof. intros (w1 & w2 & w3 & w4 & w5 & _ & H1 & H2 & H3 & _). auto. Qed.

Lemma candidate_runs content q d1 d2 d3 :
  candidate content q d1 d2 d3 ->
  run_of is_digit d1 /\ run_of is_digit d2 /\ run_of is_digit d3.
Proof. intros (b & _ & Hs). eapply shaped_runs; eauto. Qed.

(** ** The extractor *)

Lemma extract_summary_nil limit content :
  finditer content = [] ->
  extract_summary_with limit content = inl summary_not_found.
Proof. unfold extract_summary_with, findall. now intros ->. Qed.

Lemma extract_summary_last limit content ms m :
  finditer content = ms ++ [m] ->
  exists d1 d2 d3,
    m_groups m = [d1; d2; d3]
    /\ candidate content (m_start m) d1 d2 d3
    /\ extract_summary_with limit content = to_ints limit d1 d2 d3.
Proof.
  intros E.
  destruct (@finditer_sound content m) as (b & d1 & d2 & d3 & Hocc & Hs & _ & Hg).
  { rewrite E. apply in_or_app. right. now left. }
  exists d1, d2, d3. split; [assumption|]. split; [exists b; auto|].
  unfold extract_summary_with, findall. rewrite E, map_app. simpl map.
  rewrite last_last, Hg.
  destruct (map m_groups ms); reflexivity.
Qed.

(** ** Occurrences inside occurrences *)

(** A run followed by a character outside its class is determined by the
    text it starts. *)
Lemma run_split_unique cls : forall t t' r r',
  t ++ r = t' ++ r' -> forallb cls t = true -> forallb cls t' = true ->
  stops cls r -> stops cls r' -> t = t' /\ r = r'.
Proof.
  induction t as [|c t IH]; intros t' r r' E Ht Ht' Hr Hr'.
  - destruct t' as [|c' t']; [auto|].
    simpl in *. subst r. simpl in Hr.
    apply andb_true_iff in Ht'. destruct Ht'. congruence.
  - destruct t' as [|c' t'].
    + simpl in *. subst r'. simpl in Hr'.
      apply andb_true_iff in Ht. destruct Ht. congruence.
    + simpl in *. inversion E; subst.
      apply andb_true_iff in Ht. apply andb_true_iff in Ht'.
      destruct (IH t' r r') as [-> ->]; tauto.
Qed.

Lemma match_needs_digit s :
  stops is_digit s -> match_nodes pattern s [] = None.
Proof.
  unfold pattern. cbn [match_nodes in_class]. unfold plus.
  destruct s as [|c s]; [reflexivity|]. simpl. now intros ->.
Qed.

(** After a digit sequence and a separator the pattern wants [Tests]. *)
Lemma match_wrong_keyword e w x :
  run_of is_digit e -> run_of is_space w -> stops is_space x ->
  (forall y, x <> txt "Tests" ++ y) ->
  match_nodes pattern (e ++ w ++ x) [] = None.
Proof.
  intros He Hw Hx Hkw.
  destruct (match_nodes pattern (e ++ w ++ x) []) as [[gs rest]|] eqn:E;
    [|reflexivity].
  exfalso. apply match_pattern_sound in E.
  destruct E as (b & d1 & d2 & d3 & E & Hs & _).
  destruct Hs as (w1 & w2 & w3 & w4 & w5 & -> & Hd1 & _ & _ & Hw1 & _).
  repeat rewrite <- app_assoc in E.
  apply run_split_unique with (cls := is_digit) in E;
    [| apply He | apply Hd1 | now apply stops_space_run
     | now apply stops_space_run].
  destruct E as [_ E].
  apply run_split_unique with (cls := is_space) in E;
    [| apply Hw | apply Hw1 | assumption | reflexivity].
  destruct E as [_ E]. eapply Hkw; eauto.
Qed.

Lemma dead_app a b tail : dead a (b ++ tail) -> dead b tail -> dead (a ++ b) tail.
Proof.
  intros Ha Hb x y E Hy.
  apply app_eq_app in E. destruct E as (l & [[-> ->] | [-> ->]]).
  - destruct l as [|c l].
    + simpl in *. apply (Hb [] b); [reflexivity | assumption].
    + rewrite <- app_assoc. apply (Ha x (c :: l)); [reflexivity | discriminate].
  - apply (Hb l y); [reflexivity | assumption].
Qed.

Lemma dead_no_digit t tail :
  (forall c, In c t -> is_digit c = false) -> dead t tail.
Proof.
  intros H x y -> Hy. destruct y as [|c y]; [congruence|].
  apply match_needs_digit. simpl. apply H. apply in_or_app. right. now left.
Qed.

Lemma dead_space_run w tail : run_of is_space w -> dead w tail.
Proof.
  intros [_ Hall]. apply dead_no_digit. intros c Hin.
  rewrite forallb_forall in Hall. apply space_not_digit. auto.
Qed.

Lemma dead_digit_run d w z :
  run_of is_digit d -> run_of is_space w -> stops is_space z ->
  (forall y, z <> txt "Tests" ++ y) ->
  dead d (w ++ z).
Proof.
  intros [_ Hall] Hw Hx Hkw a y -> Hy.
  apply match_wrong_keyword; auto.
  split; [assumption|].
  rewrite forallb_app in Hall. apply andb_true_iff in Hall. tauto.
Qed.

Lemma letters_no_digit (l : string) :
  forallb (fun c => negb (is_digit c)) (txt l) = true ->
  forall c, In c (txt l) -> is_digit c = false.
Proof.
  intros H c Hin. rewrite forallb_forall in H. apply H in Hin.
  now apply negb_true_iff.
Qed.

(** Past its first digit sequence, an occurrence holds no position at which
    another one starts. *)
Lemma shaped_tail_dead w1 w2 d2 w3 w4 d3 w5 rest :
  run_of is_digit d2 -> run_of is_digit d3 ->
  run_of is_space w1 -> run_of is_space w2 -> run_of is_space w3 ->
  run_of is_space w4 -> run_of is_space w5 ->
  dead (w1 ++ txt "Tests" ++ w2 ++ d2 ++ w3 ++ txt "Failures" ++ w4
           ++ d3 ++ w5 ++ txt "Ignored") rest.
Proof.
  intros Hd2 Hd3 Hw1 Hw2 Hw3 Hw4 Hw5.
  apply dead_app; [now apply dead_space_run|].
  apply dead_app; [now apply dead_no_digit, letters_no_digit|].
  apply dead_app; [now apply dead_space_run|].
  apply dead_app.
  { repeat rewrite <- app_assoc. apply dead_digit_run; auto.
    - reflexivity.
    - intros y H. discriminate H. }
  apply dead_app; [now apply dead_space_run|].
  apply dead_app; [now apply dead_no_digit, letters_no_digit|].
  apply dead_app; [now apply dead_space_run|].
  apply dead_app.
  { repeat rewrite <- app_assoc. apply dead_digit_run; auto.
    - reflexivity.
    - intros y H. discriminate H. }
  apply dead_app; [now apply dead_space_run|].
  now apply dead_no_digit, letters_no_digit.
Qed.

Lemma run_prefix_last (cls : ascii -> bool) (x a : text) :
  forallb cls (x ++ a) = true -> x <> [] ->
  exists x' c, x = x' ++ [c] /\ cls c = true.
Proof.
  intros Hall Hx. destruct (exists_last Hx) as (x' & c & ->).
  exists x', c. split; [reflexivity|].
  rewrite !forallb_app in Hall. simpl in Hall.
  repeat (apply andb_true_iff in Hall; destruct Hall as [Hall ?]).
  apply andb_true_iff in H0. tauto.
Qed.

(** A match that starts strictly inside an occurrence starts right after a
    digit (inside the first digit sequence). *)
Lemma inner_start_after_digit b d1 d2 d3 x y rest :
  shaped b d1 d2 d3 -> b = x ++ y -> x <> [] -> y <> [] ->
  match_nodes pattern (y ++ rest) [] <> None ->
  exists x' c, x = x' ++ [c] /\ is_digit c = true.
Proof.
  intros (w1 & w2 & w3 & w4 & w5 & -> & Hd1 & Hd2 & Hd3
          & Hw1 & Hw2 & Hw3 & Hw4 & Hw5) E Hx Hy Hm.
  apply app_eq_app in E. destruct E as (l & [[-> E] | [-> E]]).
  - destruct Hd1 as [_ Hall]. eapply run_prefix_last; eauto.
  - exfalso. apply Hm.
    apply (@shaped_tail_dead w1 w2 d2 w3 w4 d3 w5 rest
             Hd2 Hd3 Hw1 Hw2 Hw3 Hw4 Hw5 l y E Hy).
Qed.

(** ** Matches start at whole numbers *)

Lemma shaped_extend ds b d1 d2 d3 :
  forallb is_digit ds = true -> shaped b d1 d2 d3 ->
  shaped (ds ++ b) (ds ++ d1) d2 d3.
Proof.
  intros Hds (w1 & w2 & w3 & w4 & w5 & -> & [Hne Hall] & H).
  exists w1, w2, w3, w4, w5. split; [now rewrite <- app_assoc|].
  split; [|exact H]. split.
  - destruct ds; simpl; [assumption | discriminate].
  - rewrite forallb_app, Hds, Hall. reflexivity.
Qed.

Lemma shaped_last b d1 d2 d3 :
  shaped b d1 d2 d3 -> exists b' c, b = b' ++ [c] /\ is_digit c = false.
Proof.
  intros (w1 & w2 & w3 & w4 & w5 & -> & _).
  exists (d1 ++ w1 ++ txt "Tests" ++ w2 ++ d2 ++ w3 ++ txt "Failures" ++ w4
             ++ d3 ++ w5 ++ txt "Ignore"), "d"%char.
  split; [|reflexivity].
  repeat rewrite <- app_assoc. reflexivity.
Qed.

Lemma digits_tried_nil s : digits_tried [] s.
Proof.
  intros pre0 ds E [Hne _]. symmetry in E.
  apply app_eq_nil in E. tauto.
Qed.

Lemma digits_tried_step pre c s :
  digits_tried pre (c :: s) -> match_nodes pattern (c :: s) [] = None ->
  digits_tried (pre ++ [c]) s.
Proof.
  intros Hdt E pre0 ds Hsplit [Hne Hall].
  destruct (exists_last Hne) as (ds' & x & ->).
  rewrite app_assoc in Hsplit. apply app_inj_tail in Hsplit.
  destruct Hsplit as [-> ->]. rewrite <- app_assoc. simpl.
  destruct ds' as [|z ds']; [exact E|].
  apply (Hdt pre0 (z :: ds')); [reflexivity|].
  split; [discriminate|].
  rewrite forallb_app in Hall. apply andb_true_iff in Hall. tauto.
Qed.

Lemma digits_tried_after pre b d1 d2 d3 rest :
  shaped b d1 d2 d3 -> digits_tried (pre ++ b) rest.
Proof.
  intros Hs pre0 ds Hsplit [Hne Hall]. exfalso.
  destruct (shaped_last Hs) as (b' & c & -> & Hc).
  destruct (exists_last Hne) as (ds' & x & ->).
  rewrite !app_assoc in Hsplit. apply app_inj_tail in Hsplit.
  destruct Hsplit as [_ ->].
  rewrite forallb_app in Hall. simpl in Hall.
  apply andb_true_iff in Hall. destruct Hall as [_ Hall].
  rewrite Hc in Hall. discriminate.
Qed.

Lemma whole_number_here pre s gs rest :
  digits_tried pre s -> match_nodes pattern s [] = Some (gs, rest) ->
  whole_number_at (pre ++ s) (length pre).
Proof.
  intros Hdt E p c r Hc Hlen.
  destruct (is_digit c) eqn:Ec; [exfalso | reflexivity].
  assert (Hpre : pre = p ++ [c]).
  { assert (H : (p ++ [c]) ++ r = pre ++ s)
      by (rewrite <- app_assoc; simpl; congruence).
    apply app_split_left in H; [|rewrite length_app; simpl; lia].
    destruct H as (mid' & -> & _).
    rewrite !length_app in Hlen. simpl in Hlen.
    destruct mid'; [now rewrite app_nil_r | simpl in Hlen; lia]. }
  apply match_pattern_sound in E.
  destruct E as (b & d1 & d2 & d3 & -> & Hs & _).
  assert (Hs' : shaped ([c] ++ b) ([c] ++ d1) d2 d3)
    by (apply shaped_extend; [simpl; now rewrite Ec | assumption]).
  pose proof (match_pattern_complete rest Hs') as Hm.
  rewrite <- app_assoc in Hm.
  rewrite (Hdt p [c]) in Hm; [discriminate | assumption |].
  split; [discriminate | simpl; now rewrite Ec].
Qed.

(** Every match of the scan starts at a whole number: the character
    before it, if any, is not a digit. *)
Lemma scan_whole : forall fuel pre s m,
  (length s < fuel)%nat -> digits_tried pre s ->
  In m (scan fuel (length pre) s) -> whole_number_at (pre ++ s) (m_start m).
Proof.
  induction fuel as [|fuel IH]; intros pre s m Hf Hdt Hin; [lia|].
  rewrite scan_S in Hin.
  destruct (match_nodes pattern s []) as [[gs rest]|] eqn:E.
  - destruct Hin as [<- | Hin].
    + simpl. eapply whole_number_here; eauto.
    + apply match_pattern_sound in E.
      destruct E as (b & d1 & d2 & d3 & -> & Hs & _).
      pose proof (shaped_length Hs) as Hb.
      replace (length pre + (length (b ++ rest) - length rest))%nat
        with (length (pre ++ b)) in Hin by (rewrite !length_app; lia).
      rewrite app_assoc. apply IH; auto.
      * rewrite length_app in Hf. lia.
      * eapply digits_tried_after; eauto.
  - destruct s as [|c s]; [contradiction|].
    replace (S (length pre)) with (length (pre ++ [c])) in Hin
      by (rewrite length_app; simpl; lia).
    replace (pre ++ c :: s) with ((pre ++ [c]) ++ s)
      by (now rewrite <- app_assoc).
    apply IH; auto.
    + simpl in Hf. lia.
    + now apply digits_tried_step.
Qed.

(** A substring of the shape that starts at a whole number is a match of
    the scan, with the same digit sequences. *)
Lemma scan_exact : forall fuel pre s mid b post d1 d2 d3,
  (length s < fuel)%nat -> s = mid ++ b ++ post -> shaped b d1 d2 d3 ->
  whole_number_at (pre ++ s) (length pre + length mid) ->
  exists m, In m (scan fuel (length pre) s)
            /\ m_start m = (length pre + length mid)%nat
            /\ m_end m = (m_start m + length b)%nat
            /\ m_groups m = [d1; d2; d3].
Proof.
  induction fuel as [|fuel IH];
    intros pre s mid b post d1 d2 d3 Hf Hs Hsh Hw; [lia|].
  rewrite scan_S.
  destruct (match_nodes pattern s []) as [[gs rest]|] eqn:E.
  - destruct mid as [|c mid].
    + simpl in Hs. subst s.
      rewrite (match_pattern_complete post Hsh) in E.
      inversion E; subst.
      eexists. split; [left; reflexivity|]. simpl.
      rewrite length_app. repeat split; lia.
    + pose proof E as E'. apply match_pattern_sound in E'.
      destruct E' as (b0 & e1 & e2 & e3 & Hs0 & Hsh0 & _).
      pose proof (shaped_length Hsh0) as Hb0.
      assert (Hlen : (length s - length rest = length b0)%nat)
        by (rewrite Hs0, length_app; lia).
      rewrite Hlen.
      destruct (Nat.lt_ge_cases (length (c :: mid)) (length b0)) as [Hlt | Hge].
      * exfalso.
        assert (H : (c :: mid) ++ b ++ post = b0 ++ rest) by congruence.
        apply app_split_left in H; [|lia].
        destruct H as (y & Hb0y & Hy).
        assert (Hyne : y <> [])
          by (intros ->; rewrite app_nil_r in Hb0y; subst b0; lia).
        destruct (@inner_start_after_digit b0 e1 e2 e3 (c :: mid) y rest)
          as (x' & z & Hx & Hz); auto; [discriminate| |].
        { rewrite <- Hy, (match_pattern_complete post Hsh). discriminate. }
        rewrite (Hw (pre ++ x') z (b ++ post)) in Hz; [discriminate| |].
        -- rewrite Hs, Hx. now repeat rewrite <- app_assoc.
        -- rewrite Hx, !length_app. simpl. lia.
      * rewrite Hs0 in Hs. apply app_split_left in Hs; [|assumption].
        destruct Hs as (mid' & Hmid & Hrest).
        destruct (IH (pre ++ b0) rest mid' b post d1 d2 d3)
          as (m & Hin & Hst & Hen & Hg); auto.
        { rewrite Hs0, length_app in Hf. lia. }
        { rewrite <- app_assoc, <- Hs0.
          replace (length (pre ++ b0) + length mid')%nat
            with (length pre + length (c :: mid))%nat; [assumption|].
          rewrite Hmid, !length_app. lia. }
        exists m. rewrite length_app in Hin. split; [now right|].
        rewrite Hst, Hmid, !length_app in *. repeat split; auto; lia.
  - destruct mid as [|c mid].
    + simpl in Hs. subst s.
      rewrite (match_pattern_complete post Hsh) in E. discriminate.
    + subst s. simpl app.
      destruct (IH (pre ++ [c]) (mid ++ b ++ post) mid b post d1 d2 d3)
        as (m & Hin & Hst & Hen & Hg); auto.
      { simpl in Hf. lia. }
      { rewrite <- app_assoc. simpl.
        replace (length (pre ++ [c]) + length mid)%nat
          with (length pre + length (c :: mid))%nat; [assumption|].
        rewrite length_app. simpl. lia. }
      exists m. rewrite length_app in Hin, Hst. simpl in *.
      replace (length pre + 1)%nat with (S (length pre)) in Hin by lia.
      split; [assumption|]. repeat split; auto; lia.
Qed.

(** ** Occurrences and matches *)

Lemma finditer_whole content m :
  In m (finditer content) -> whole_number_at content (m_start m).
Proof.
  intros Hin.
  apply (@scan_whole (S (length content)) [] content m); auto.
  apply digits_tried_nil.
Qed.

Lemma finditer_exact content q d1 d2 d3 :
  occurrence content q d1 d2 d3 ->
  exists m, In m (finditer content) /\ m_start m = q
            /\ m_groups m = [d1; d2; d3].
Proof.
  intros [(b & (pre & post & -> & <-) & Hs) Hw].
  destruct (@scan_exact (S (length (pre ++ b ++ post))) []
              (pre ++ b ++ post) pre b post d1 d2 d3)
    as (m & Hin & Hst & _ & Hg); auto.
  exists m. auto.
Qed.

Lemma finditer_occurrence content m :
  In m (finditer content) ->
  exists d1 d2 d3,
    occurrence content (m_start m) d1 d2 d3 /\ m_groups m = [d1; d2; d3].
Proof.
  intros Hin. destruct (@finditer_candidate content m Hin) as (d1 & d2 & d3 & Hc & Hg).
  exists d1, d2, d3. split; [|assumption].
  split; [assumption | now apply finditer_whole].
Qed.

(** The digit sequences of a substring of the shape are determined by where
    it starts. *)
Lemma candidate_functional content q d1 d2 d3 e1 e2 e3 :
  candidate content q d1 d2 d3 -> candidate content q e1 e2 e3 ->
  d1 = e1 /\ d2 = e2 /\ d3 = e3.
Proof.
  intros (b & (pre & post & -> & <-) & Hs) (b' & (pre' & post' & E & Hl) & Hs').
  apply app_split_left in E; [|lia].
  destruct E as (mid & -> & E).
  assert (mid = []) as ->.
  { rewrite length_app in Hl. destruct mid; [reflexivity | simpl in Hl; lia]. }
  simpl in E.
  pose proof (match_pattern_complete post Hs) as H1.
  pose proof (match_pattern_complete post' Hs') as H2.
  rewrite E in H1. rewrite H1 in H2. inversion H2. auto.
Qed.

Lemma sorted_pair (A : Type) (R : A -> A -> Prop) : forall l x y,
  StronglySorted R l -> In x l -> In y l -> x = y \/ R x y \/ R y x.
Proof.
  induction l as [|a l IH]; intros x y Hs Hx Hy; [contradiction|].
  inversion Hs as [|? ? Hs' Hall]; subst. rewrite Forall_forall in Hall.
  destruct Hx as [-> | Hx], Hy as [-> | Hy]; auto.
Qed.

Lemma list_nil_or_last (A : Type) (l : list A) :
  l = [] \/ exists l' x, l = l' ++ [x].
Proof.
  destruct l as [|a l]; [now left | right].
  destruct (@exists_last A (a :: l)) as (l' & x & E); [discriminate|].
  eauto.
Qed.

(** The extractor either finds no substring of the shape and fails, or
    converts the numbers of an occurrence after which no other starts. *)
Lemma extract_summary_cases limit content :
  (extract_summary_with limit content = inl summary_not_found
   /\ forall q d1 d2 d3, ~ candidate content q d1 d2 d3)
  \/ (exists q d1 d2 d3,
        occurrence content q d1 d2 d3
        /\ (forall q' e1 e2 e3, occurrence content q' e1 e2 e3 -> (q' <= q)%nat)
        /\ extract_summary_with limit content = to_ints limit d1 d2 d3).
Proof.
  destruct (list_nil_or_last (finditer content)) as [E | (ms & m & E)].
  - left. split; [now apply extract_summary_nil|].
    apply findall_nil_iff. unfold findall. now rewrite E.
  - right. destruct (@extract_summary_last limit content ms m E) as (d1 & d2 & d3 & Hg & Hc & Hx).
    exists (m_start m), d1, d2, d3.
    assert (Hin : In m (finditer content))
      by (rewrite E; apply in_or_app; right; now left).
    split; [split; [assumption | now apply finditer_whole]|].
    split; [|assumption].
    intros q' e1 e2 e3 Ho. apply finditer_exact in Ho.
    destruct Ho as (m' & Hin' & <- & _).
    rewrite E in Hin'. apply in_app_or in Hin'.
    destruct Hin' as [Hin' | [<- | []]]; [|lia].
    pose proof (finditer_sorted content) as Hs. rewrite E in Hs.
    destruct (@sorted_last_greatest ms m Hs) with (m' := m'); auto; [|lia].
    intros x Hx'. apply (@finditer_span content). now rewrite E.
Qed.

Lemma summary_nonneg d1 d2 d3 b :
  shaped b d1 d2 d3 ->
  0 <= decimal_value d1 /\ 0 <= decimal_value d2 /\ 0 <= decimal_value d3.
Proof.
  intros (w1 & w2 & w3 & w4 & w5 & _ & [_ H1] & [_ H2] & [_ H3] & _).
  auto using decimal_value_nonneg.
Qed.

(** A successful match at offset [q] exhibits a substring of the shape
    there. *)
Lemma candidate_by_match content q d1 d2 d3 rest :
  (q <= length content)%nat ->
  match_nodes pattern (skipn q content) [] = Some ([d1; d2; d3], rest) ->
  candidate content q d1 d2 d3.
Proof.
  intros Hq E. apply match_pattern_sound in E.
  destruct E as (b & e1 & e2 & e3 & E & Hs & Hg). inversion Hg; subst.
  exists b. split; [|assumption].
  exists (firstn q content), rest. split.
  - rewrite <- E. symmetry. apply firstn_skipn.
  - apply firstn_length_le. assumption.
Qed.

(** ** The driver, path by path *)


Lemma main_invalid fs argv :
  length argv <> 2%nat -> main fs argv = MkRun "" (print "" usage) 2 [].
Proof.
  intros H. unfold main. apply Nat.eqb_neq in H. now rewrite H.
Qed.

Lemma main_missing fs argv :
  length argv = 2%nat -> fs (path_arg argv) = Missing ->
  main fs argv =
  MkRun "" (print "" ("Error: Output file not found: " ++ path_arg argv)) 2
        [EvExists (path_arg argv)].
Proof.
  intros Hlen Hfs. unfold main, parse_unity_output, path_exists.
  fold (path_arg argv). rewrite Hlen, Hfs. reflexivity.
Qed.

Lemma main_unreadable fs argv msg :
  length argv = 2%nat -> fs (path_arg argv) = Unreadable msg ->
  main fs argv =
  MkRun "" (print (print "" "Traceback (most recent call last):") msg) 1
        [EvExists (path_arg argv); EvReadText (path_arg argv)].
Proof.
  intros Hlen Hfs. unfold main, parse_unity_output, path_exists, read_text.
  fold (path_arg argv). rewrite Hlen, Hfs. reflexivity.
Qed.

Lemma main_undecodable fs argv msg :
  length argv = 2%nat -> fs (path_arg argv) = Undecodable msg ->
  main fs argv =
  MkRun "" (diagnostic msg) 1
        [EvExists (path_arg argv); EvReadText (path_arg argv)].
Proof.
  intros Hlen Hfs. unfold main, parse_unity_output, path_exists, read_text.
  fold (path_arg argv). rewrite Hlen, Hfs. reflexivity.
Qed.

Lemma main_completed fs argv content t f i :
  length argv = 2%nat -> fs (path_arg argv) = File content ->
  extract_summary content = inr (t, f, i) ->
  main fs argv =
  MkRun (print (report t f i) (banner f)) "" (if f =? 0 then 0 else 1)
        [EvExists (path_arg argv); EvReadText (path_arg argv)].
Proof.
  intros Hlen Hfs Hx. unfold main, parse_unity_output, path_exists, read_text.
  fold (path_arg argv). rewrite Hlen, Hfs. cbn [Nat.eqb negb].
  rewrite Hx. unfold banner. destruct (f =? 0); reflexivity.
Qed.


Lemma main_value_error fs argv content msg :
  length argv = 2%nat -> fs (path_arg argv) = File content ->
  extract_summary content = inl (ValueError msg) ->
  main fs argv =
  MkRun "" (diagnostic msg) 1
        [EvExists (path_arg argv); EvReadText (path_arg argv)].
Proof.
  intros Hlen Hfs Hx. unfold main, parse_unity_output, path_exists, read_text.
  fold (path_arg argv). rewrite Hlen, Hfs. cbn [Nat.eqb negb].
  rewrite Hx. reflexivity.
Qed.

(** ** What the extractor returns *)

Lemma extract_of_greatest limit content q d1 d2 d3 :
  occurrence content q d1 d2 d3 ->
  (forall q' e1 e2 e3, occurrence content q' e1 e2 e3 -> (q' <= q)%nat) ->
  extract_summary_with limit content = to_ints limit d1 d2 d3.
Proof.
  intros Ho Hmax.
  destruct (extract_summary_cases limit content)
    as [[_ Hno] | (q' & f1 & f2 & f3 & Ho' & Hmax' & E)].
  - exfalso. destruct Ho as [Hc _]. eapply Hno; eauto.
  - assert (q' = q) by (apply Hmax in Ho'; apply Hmax' in Ho; lia).
    subst q'. destruct Ho as [Hc _], Ho' as [Hc' _].
    destruct (candidate_functional Hc Hc') as (-> & -> & ->). assumption.
Qed.

(** When the extractor returns a summary, it is made of the base-10 values
    of the last occurrence, whose numbers are within the limit. *)
Lemma extract_summary_inr limit content x :
  extract_summary_with limit content = inr x ->
  exists q d1 d2 d3,
    occurrence content q d1 d2 d3
    /\ (forall q' e1 e2 e3, occurrence content q' e1 e2 e3 -> (q' <= q)%nat)
    /\ x = summary_of d1 d2 d3
    /\ fits limit d1 /\ fits limit d2 /\ fits limit d3.
Proof.
  intros H.
  destruct (extract_summary_cases limit content)
    as [[E _] | (q & d1 & d2 & d3 & Ho & Hmax & E)]; [congruence|].
  rewrite E in H.
  destruct Ho as [Hc Hw].
  destruct (@candidate_runs content q d1 d2 d3 Hc) as (H1 & H2 & H3).
  destruct (@to_ints_inr limit d1 d2 d3 x H1 H2 H3 H) as (-> & F1 & F2 & F3).
  exists q, d1, d2, d3. repeat split; auto.
Qed.

(** When the extractor fails, either the content holds no substring of the
    shape, or a number of the last occurrence is beyond the limit. *)
Lemma extract_summary_inl limit content e :
  extract_summary_with limit content = inl e ->
  (e = summary_not_found
   /\ forall q d1 d2 d3, ~ candidate content q d1 d2 d3)
  \/ (exists q d1 d2 d3 d,
        occurrence content q d1 d2 d3
        /\ (forall q' e1 e2 e3, occurrence content q' e1 e2 e3 -> (q' <= q)%nat)
        /\ (d = d1 \/ d = d2 \/ d = d3)
        /\ (0 < limit < length d)%nat
        /\ e = ValueError (exceeds_limit_message limit (length d))).
Proof.
  intros H.
  destruct (extract_summary_cases limit content)
    as [[E Hno] | (q & d1 & d2 & d3 & Ho & Hmax & E)].
  - left. rewrite E in H. inversion H. auto.
  - right. rewrite E in H. destruct Ho as [Hc Hw].
    destruct (@candidate_runs content q d1 d2 d3 Hc) as (H1 & H2 & H3).
    destruct (@to_ints_exceeds limit d1 d2 d3 H1 H2 H3) as (d & Hd & Hlen & E').
    { intros (F1 & F2 & F3).
      rewrite (@to_ints_fits limit d1 d2 d3 H1 H2 H3 F1 F2 F3) in H.
      discriminate. }
    exists q, d1, d2, d3, d. rewrite E' in H. inversion H.
    split; [split; assumption|]. split; [assumption|].
    split; [assumption|]. split; [assumption | reflexivity].
Qed.

Lemma extract_summary_error limit content e :
  extract_summary_with limit content = inl e -> exists msg, e = ValueError msg.
Proof.
  intros H. apply extract_summary_inl in H.
  destruct H as [[-> _] | (q & d1 & d2 & d3 & d & _ & _ & _ & _ & ->)];
    unfold summary_not_found; eauto.
Qed.

(** What the extractor returns is never negative. *)
Lemma extract_summary_nonneg content t f i :
  extract_summary content = inr (t, f, i) -> 0 <= t /\ 0 <= f /\ 0 <= i.
Proof.
  intros H. apply extract_summary_inr in H.
  destruct H as (q & d1 & d2 & d3 & [(b & _ & Hs) _] & _ & E & _).
  inversion E; subst. eapply summary_nonneg; eauto.
Qed.

Lemma extract_summary_found content x :
  extract_summary content = inr x ->
  exists q d1 d2 d3, occurrence content q d1 d2 d3.
Proof.
  intros H. apply extract_summary_inr in H.
  destruct H as (q & d1 & d2 & d3 & Ho & _). eauto.
Qed.

Lemma extract_summary_no_candidate content :
  (forall q d1 d2 d3, ~ candidate content q d1 d2 d3) ->
  extract_summary content = inl summary_not_found.
Proof.
  intros Hno.
  destruct (extract_summary_cases default_max_str_digits content)
    as [[E _] | (q & d1 & d2 & d3 & [Hc _] & _)]; [assumption|].
  exfalso. eapply Hno; eauto.
Qed.

(** ** Outcomes *)



Lemma occurrence_by_finditer content m d1 d2 d3 :
  In m (finditer content) -> m_groups m = [d1; d2; d3] ->
  occurrence content (m_start m) d1 d2 d3.
Proof.
  intros Hin Hg.
  destruct (@finditer_occurrence content m Hin) as (e1 & e2 & e3 & Ho & Hg').
  rewrite Hg in Hg'. inversion Hg'; subst. assumption.
Qed.

Lemma occurrence_bound content (P : nat -> Prop) :
  Forall (fun m => P (m_start m)) (finditer content) ->
  forall q d1 d2 d3, occurrence content q d1 d2 d3 -> P q.
Proof.
  intros Hall q d1 d2 d3 Ho. apply finditer_exact in Ho.
  destruct Ho as (m & Hin & <- & _).
  rewrite Forall_forall in Hall. now apply Hall.
Qed.
(** A content with a single substring of the shape has a single
    occurrence, that substring. *)
Lemma sole_candidate_is_sole_occurrence content q d1 d2 d3 :
  candidate content q d1 d2 d3 ->
  (forall q' e1 e2 e3, candidate content q' e1 e2 e3 -> q' = q) ->
  occurrence content q d1 d2 d3
  /\ (forall q' e1 e2 e3, occurrence content q' e1 e2 e3 -> q' = q).
Proof.
  intros Hc Huniq. split.
  - split; [assumption|].
    destruct (@finditer_complete content q d1 d2 d3 Hc) as (m & Hin & _).
    destruct (@finditer_candidate content m Hin) as (e1 & e2 & e3 & Hc' & _).
    rewrite <- (Huniq _ _ _ _ Hc'). now apply finditer_whole.
  - intros q' e1 e2 e3 [Hc' _]. eauto.
Qed.

(** ** The scenarios of the specification *)

Example scenario_all_passed :
  main sample_fs [prog; "pass.log"]%string
  = MkRun (print (report 10 0 0) (banner 0)) "" 0
          [EvExists "pass.log"; EvReadText "pass.log"]%string.
Proof. reflexivity. Qed.

Example scenario_some_failed :
  main sample_fs [prog; "fail.log"]%string
  = MkRun (print (report 10 2 1) (banner 2)) "" 1
          [EvExists "fail.log"; EvReadText "fail.log"]%string.
Proof. reflexivity. Qed.

Example scenario_last_match_wins :
  extract_summary log_two = inr (5, 0, 0)
  /\ exit_code (main sample_fs [prog; "two.log"]%string) = 0.
Proof. split; reflexivity. Qed.

Example scenario_no_summary :
  extract_summary log_crash = inl summary_not_found
  /\ exit_code (main sample_fs [prog; "crash.log"]%string) = 1.
Proof. split; reflexivity. Qed.

Example scenario_two_arguments :
  main sample_fs [prog; "pass.log"; "fail.log"]%string
  = MkRun "" (print "" usage) 2 [].
Proof. reflexivity. Qed.

Example scenario_nonexistent_file :
  main sample_fs [prog; "nowhere.log"]%string
  = MkRun "" (print "" "Error: Output file not found: nowhere.log") 2
          [EvExists "nowhere.log"%string].
Proof. reflexivity. Qed.

(** A file that cannot be decoded: [UnicodeDecodeError] is a [ValueError],
    so the missing-summary branch of [main] handles it. *)
Example scenario_undecodable_file :
  exit_code (main sample_fs [prog; "qemu.bin"]%string) = 1
  /\ stdout (main sample_fs [prog; "qemu.bin"]%string) = ""%string.
Proof. split; reflexivity. Qed.

(** ** A number beyond the limit *)

Lemma huge_occurrence : occurrence log_huge 0 nines (txt "0") (txt "0").
Proof.
  apply (@occurrence_by_finditer log_huge
           (MkMatch 0 4328 [nines; txt "0"; txt "0"]));
    [vm_compute; left; reflexivity | reflexivity].
Qed.

Lemma huge_sole_occurrence :
  forall q' e1 e2 e3, occurrence log_huge q' e1 e2 e3 -> q' = 0%nat.
Proof.
  apply (@occurrence_bound log_huge (fun n => n = 0%nat)).
  vm_compute. repeat constructor.
Qed.

Lemma huge_extract :
  extract_summary log_huge
  = inl (ValueError (exceeds_limit_message default_max_str_digits 4301)).
Proof. vm_compute. reflexivity. Qed.

Lemma nines_run : run_of is_digit nines.
Proof. split; [discriminate | vm_compute; reflexivity]. Qed.

Lemma zero_run : run_of is_digit (txt "0").
Proof. split; [discriminate | reflexivity]. Qed.

Lemma nines_fit_5000 : fits 5000 nines.
Proof. right. apply Nat.leb_le. vm_compute. reflexivity. Qed.

Lemma zero_fit limit : (0 < limit)%nat -> fits limit (txt "0").
Proof. intros H. right. simpl. lia. Qed.

(** With the limit raised to 5000 digits the number is accepted. *)
Lemma huge_extract_raised :
  extract_summary_with 5000 log_huge
  = inr (summary_of nines (txt "0") (txt "0")).
Proof.
  rewrite (@extract_of_greatest 5000 log_huge 0 nines (txt "0") (txt "0")
             huge_occurrence).
  - apply (@to_ints_fits 5000 nines (txt "0") (txt "0")
             nines_run zero_run zero_run nines_fit_5000).
    + apply zero_fit. apply Nat.ltb_lt. reflexivity.
    + apply zero_fit. apply Nat.ltb_lt. reflexivity.
  - intros q' e1 e2 e3 Ho. rewrite (huge_sole_occurrence Ho).
    apply Nat.le_refl.
Qed.

Lemma within_default (d : text) :
  (length d <=? default_max_str_digits)%nat = true ->
  fits default_max_str_digits d.
Proof. intros H. right. now apply Nat.leb_le. Qed.

(** * The claims *)




(** C2, as the code has it.  When the content holds two or more
    occurrences and each of the three numbers of the occurrence with the
    greatest start offset has at most 4300 digits, the extracted summary is
    made of those three integers, whatever the earlier occurrences hold. *)
Theorem last_occurrence_wins content q0 e1 e2 e3 q d1 d2 d3 :
  occurrence content q0 e1 e2 e3 ->
  occurrence content q d1 d2 d3 ->
  (q0 < q)%nat ->
  (forall q' f1 f2 f3, occurrence content q' f1 f2 f3 -> (q' <= q)%nat) ->
  (length d1 <= default_max_str_digits)%nat ->
  (length d2 <= default_max_str_digits)%nat ->
  (length d3 <= default_max_str_digits)%nat ->
  extract_summary content = inr (summary_of d1 d2 d3).
Proof.
  intros _ Ho _ Hmax L1 L2 L3. unfold extract_summary.
  rewrite (@extract_of_greatest default_max_str_digits content q d1 d2 d3
             Ho Hmax).
  destruct Ho as [Hc _].
  destruct (@candidate_runs content q d1 d2 d3 Hc) as (H1 & H2 & H3).
  apply to_ints_fits; auto; right; assumption.
Qed.

Lemma last_occurrence_wins_witness :
  extract_summary log_two = inr (summary_of (txt "5") (txt "0") (txt "0")).
Proof.
  apply (@last_occurrence_wins log_two
           17 (txt "5") (txt "1") (txt "0") 60 (txt "5") (txt "0") (txt "0")).
  - apply (@occurrence_by_finditer log_two
             (MkMatch 17 45 [txt "5"; txt "1"; txt "0"]));
      [vm_compute; tauto | reflexivity].
  - apply (@occurrence_by_finditer log_two
             (MkMatch 60 88 [txt "5"; txt "0"; txt "0"]));
      [vm_compute; tauto | reflexivity].
  - lia.
  - apply occurrence_bound. vm_compute. repeat constructor.
  - apply Nat.leb_le. reflexivity.
  - apply Nat.leb_le. reflexivity.
  - apply Nat.leb_le. reflexivity.
Defined.

(** C2, as stated, fails.  The content holds two occurrences; the one with
    the greatest start offset has a tests count of 4301 digits, [int]
    refuses it, and no summary is extracted. *)
Lemma last_occurrence_over_digit_limit :
  occurrence log_huge_last 0 (txt "10") (txt "2") (txt "1")
  /\ occurrence log_huge_last 30 nines (txt "0") (txt "0")
  /\ (forall q' f1 f2 f3,
        occurrence log_huge_last q' f1 f2 f3 -> (q' <= 30)%nat)
  /\ extract_summary log_huge_last
     = inl (ValueError (exceeds_limit_message default_max_str_digits 4301)).
Proof.
  split; [|split; [|split]].
  - apply (@occurrence_by_finditer log_huge_last
             (MkMatch 0 29 [txt "10"; txt "2"; txt "1"]));
      [vm_compute; left; reflexivity | reflexivity].
  - apply (@occurrence_by_finditer log_huge_last
             (MkMatch 30 4358 [nines; txt "0"; txt "0"]));
      [vm_compute; right; left; reflexivity | reflexivity].
  - apply (@occurrence_bound log_huge_last (fun n => (n <= 30)%nat)).
    vm_compute. repeat constructor.
  - vm_compute. reflexivity.
Qed.

(** C3, as the code has it.  When the content holds no substring of the
    shape, extraction fails with the missing-summary error; the empty
    content and contents with only a malformed summary (a missing number, a
    misspelled keyword) are such contents.  The extractor fails in one
    other way: when a number of the last occurrence has more than 4300
    digits, [int] raises its own [ValueError]. *)
Theorem extractor_failure_modes :
  (forall content,
     (forall q d1 d2 d3, ~ candidate content q d1 d2 d3) ->
     extract_summary content = inl summary_not_found)
  /\ (forall content e,
        extract_summary content = inl e ->
        (e = summary_not_found
         /\ forall q d1 d2 d3, ~ candidate content q d1 d2 d3)
        \/ (exists q d1 d2 d3 d,
              occurrence content q d1 d2 d3
              /\ (forall q' e1 e2 e3,
                    occurrence content q' e1 e2 e3 -> (q' <= q)%nat)
              /\ (d = d1 \/ d = d2 \/ d = d3)
              /\ (default_max_str_digits < length d)%nat
              /\ e = ValueError
                       (exceeds_limit_message default_max_str_digits
                          (length d))))
  /\ extract_summary [] = inl summary_not_found
  /\ extract_summary (txt "10 Tests Failures 0 Ignored")
     = inl summary_not_found
  /\ extract_summary (txt "10 Tests 2 Failurs 0 Ignored")
     = inl summary_not_found.
Proof.
  split; [|split; [|repeat split; reflexivity]].
  - exact extract_summary_no_candidate.
  - intros content e H. apply extract_summary_inl in H.
    destruct H as [H | (q & d1 & d2 & d3 & d & Ho & Hmax & Hd & Hlen & ->)];
      [left; exact H | right].
    exists q, d1, d2, d3, d.
    split; [assumption|]. split; [assumption|]. split; [assumption|].
    split; [lia | reflexivity].
Qed.

Lemma extractor_failure_modes_witness :
  extract_summary log_crash = inl summary_not_found.
Proof.
  apply (proj1 extractor_failure_modes log_crash).
  apply findall_nil_iff. vm_compute. reflexivity.
Defined.

(** C3, as stated, fails: missing-summary is not the extractor's only
    failure.  The content holds an occurrence whose tests count has 4301
    digits; extraction fails with the error [int] raises. *)
Lemma digit_limit_is_another_failure :
  candidate log_huge 0 nines (txt "0") (txt "0")
  /\ extract_summary log_huge
     = inl (ValueError (exceeds_limit_message default_max_str_digits 4301))
  /\ ValueError (exceeds_limit_message default_max_str_digits 4301)
     <> summary_not_found.
Proof.
  split; [exact (proj1 huge_occurrence)|].
  split; [exact huge_extract|]. vm_compute. discriminate.
Qed.

(** C4, as the code has it.  When the content holds exactly one occurrence
    and each of its three numbers has at most 4300 digits, the extracted
    summary is made of the three integers of that occurrence, each the
    base-10 value of the digit sequence matched. *)
Theorem single_occurrence_is_extracted content q d1 d2 d3 :
  occurrence content q d1 d2 d3 ->
  (forall q' e1 e2 e3, occurrence content q' e1 e2 e3 -> q' = q) ->
  (length d1 <= default_max_str_digits)%nat ->
  (length d2 <= default_max_str_digits)%nat ->
  (length d3 <= default_max_str_digits)%nat ->
  extract_summary content
  = inr (decimal_value d1, decimal_value d2, decimal_value d3)
  /\ py_int d1 = inr (decimal_value d1)
  /\ py_int d2 = inr (decimal_value d2)
  /\ py_int d3 = inr (decimal_value d3).
Proof.
  intros Ho Huniq L1 L2 L3.
  pose proof Ho as [Hc _].
  destruct (@candidate_runs content q d1 d2 d3 Hc) as (H1 & H2 & H3).
  split.
  - unfold extract_summary.
    rewrite (@extract_of_greatest default_max_str_digits content q d1 d2 d3 Ho).
    + apply to_ints_fits; auto; right; assumption.
    + intros q' e1 e2 e3 Ho'. rewrite (Huniq _ _ _ _ Ho'). lia.
  - unfold py_int. repeat split; apply py_int_fits; auto; right; assumption.
Qed.

Lemma single_occurrence_is_extracted_witness :
  extract_summary log_overlap
  = inr (decimal_value (txt "12"), decimal_value (txt "3"),
         decimal_value (txt "4"))
  /\ py_int (txt "12") = inr (decimal_value (txt "12"))
  /\ py_int (txt "3") = inr (decimal_value (txt "3"))
  /\ py_int (txt "4") = inr (decimal_value (txt "4")).
Proof.
  apply (@single_occurrence_is_extracted log_overlap 0).
  - apply (@occurrence_by_finditer log_overlap
             (MkMatch 0 29 [txt "12"; txt "3"; txt "4"]));
      [vm_compute; tauto | reflexivity].
  - apply occurrence_bound. vm_compute. repeat constructor.
  - apply Nat.leb_le. reflexivity.
  - apply Nat.leb_le. reflexivity.
  - apply Nat.leb_le. reflexivity.
Defined.

(** C4, as stated, fails.  The content holds exactly one occurrence; its
    tests count has 4301 digits, [int] refuses it, and no summary is
    extracted. *)
Lemma single_occurrence_over_digit_limit :
  occurrence log_huge 0 nines (txt "0") (txt "0")
  /\ (forall q' e1 e2 e3, occurrence log_huge q' e1 e2 e3 -> q' = 0%nat)
  /\ extract_summary log_huge
     = inl (ValueError (exceeds_limit_message default_max_str_digits 4301))
  /\ py_int nines
     = inl (ValueError (exceeds_limit_message default_max_str_digits 4301)).
Proof.
  split; [exact huge_occurrence|]. split; [exact huge_sole_occurrence|].
  split; [exact huge_extract|]. vm_compute. reflexivity.
Qed.






(** C7. The pattern accepts, at the head of a text, exactly the substrings
    of the shape [<integer> Tests <integer> Failures <integer> Ignored]
    with one or more digits per integer and one or more whitespace
    characters (newlines included) per separator, and captures the three
    digit sequences; [findall] is non-empty exactly when the content holds
    such a substring, whatever surrounds it.  Keywords in another case, a
    missing separator and a missing digit sequence are not accepted. *)
Theorem pattern_accepts_the_shape :
  (forall s gs rest,
     match_nodes pattern s [] = Some (gs, rest)
     <-> exists b d1 d2 d3,
           s = b ++ rest /\ shaped b d1 d2 d3 /\ gs = [d1; d2; d3])
  /\ (forall content,
        findall content <> []
        <-> exists q d1 d2 d3, candidate content q d1 d2 d3)
  /\ (forall pre b post d1 d2 d3,
        shaped b d1 d2 d3 -> findall (pre ++ b ++ post) <> [])
  /\ is_space (ascii_of_nat 10) = true
  /\ findall log_lines = [[txt "7"; txt "0"; txt "1"]]
  /\ findall (txt "10 tests 0 failures 0 ignored") = []
  /\ findall (txt "10 TESTS 0 FAILURES 0 IGNORED") = []
  /\ findall (txt "10Tests 0 Failures 0 Ignored") = []
  /\ findall (txt "10 Tests 0Failures 0 Ignored") = []
  /\ findall (txt "10 Tests Failures 0 Ignored") = []
  /\ findall (txt " Tests 0 Failures 0 Ignored") = [].
Proof.
  assert (Hfound : forall content q d1 d2 d3,
             candidate content q d1 d2 d3 -> findall content <> []).
  { intros content q d1 d2 d3 Hc E.
    apply (proj1 (findall_nil_iff content) E q d1 d2 d3 Hc). }
  split; [|split; [|split; [|repeat split; reflexivity]]].
  - intros s gs rest. split.
    + apply match_pattern_sound.
    + intros (b & d1 & d2 & d3 & -> & Hs & ->).
      now apply match_pattern_complete.
  - intros content. split.
    + intros Hne. destruct (finditer content) as [|m ms] eqn:E.
      * exfalso. apply Hne. unfold findall. now rewrite E.
      * destruct (@finditer_candidate content m) as (d1 & d2 & d3 & Hc & _);
          [rewrite E; now left | eauto].
    + intros (q & d1 & d2 & d3 & Hc). eapply Hfound; eauto.
  - intros pre b post d1 d2 d3 Hs.
    apply (Hfound _ (length pre) d1 d2 d3).
    exists b. split; [|assumption]. exists pre, post. auto.
Qed.

Lemma pattern_accepts_the_shape_witness :
  match_nodes pattern (txt "3 Tests 0 Failures 0 Ignored.") []
  = Some ([txt "3"; txt "0"; txt "0"], txt ".").
Proof.
  apply (proj1 pattern_accepts_the_shape).
  exists (txt "3 Tests 0 Failures 0 Ignored"), (txt "3"), (txt "0"), (txt "0").
  split; [reflexivity|]. split; [|reflexivity].
  exists (txt " "), (txt " "), (txt " "), (txt " "), (txt " ").
  unfold run_of. repeat split; (reflexivity || discriminate).
Defined.

(** C8, as the code has it.  Extraction depends on the content and on the
    interpreter's limit on digits, and on nothing else: two runs on files
    of the same content, whatever the path and whatever else the file
    system holds, give the same result; and two interpreters with
    different limits give the same result on every content in which the
    numbers of the last occurrence are within both limits. *)
Theorem extraction_depends_on_content_and_limit
        l1 l2 fs1 fs2 p1 p2 content :
  fs1 p1 = File content -> fs2 p2 = File content ->
  (forall q d1 d2 d3,
     occurrence content q d1 d2 d3 ->
     (forall q' e1 e2 e3, occurrence content q' e1 e2 e3 -> (q' <= q)%nat) ->
     (fits l1 d1 /\ fits l1 d2 /\ fits l1 d3)
     /\ (fits l2 d1 /\ fits l2 d2 /\ fits l2 d3)) ->
  extract_summary_with l1 content = extract_summary_with l2 content
  /\ snd (parse_unity_output fs1 p1) = extract_summary content
  /\ snd (parse_unity_output fs2 p2) = snd (parse_unity_output fs1 p1).
Proof.
  intros H1 H2 Hfit. split.
  - destruct (extract_summary_cases l1 content)
      as [[E Hno] | (q & d1 & d2 & d3 & Ho & Hmax & E)].
    + rewrite E. symmetry.
      destruct (extract_summary_cases l2 content)
        as [[E' _] | (q & d1 & d2 & d3 & [Hc _] & _)]; [assumption|].
      exfalso. eapply Hno; eauto.
    + rewrite E.
      rewrite (@extract_of_greatest l2 content q d1 d2 d3 Ho Hmax).
      destruct (Hfit q d1 d2 d3 Ho Hmax) as [(A1 & A2 & A3) (B1 & B2 & B3)].
      destruct Ho as [Hc _].
      destruct (@candidate_runs content q d1 d2 d3 Hc) as (R1 & R2 & R3).
      rewrite (@to_ints_fits l1 d1 d2 d3 R1 R2 R3 A1 A2 A3).
      now rewrite (@to_ints_fits l2 d1 d2 d3 R1 R2 R3 B1 B2 B3).
  - unfold parse_unity_output, path_exists, read_text. rewrite H1, H2.
    split; reflexivity.
Qed.

Lemma extraction_depends_on_content_and_limit_witness :
  extract_summary_with default_max_str_digits log_pass
  = extract_summary_with 0 log_pass
  /\ snd (parse_unity_output sample_fs "pass.log") = extract_summary log_pass
  /\ snd (parse_unity_output (fun _ => File log_pass) "other.log")
     = snd (parse_unity_output sample_fs "pass.log").
Proof.
  apply (@extraction_depends_on_content_and_limit
           default_max_str_digits 0
           sample_fs (fun _ => File log_pass) "pass.log" "other.log" log_pass);
    try reflexivity.
  intros q d1 d2 d3 Ho _.
  assert (Hq : q = 0%nat).
  { revert q d1 d2 d3 Ho.
    apply (@occurrence_bound log_pass (fun n => n = 0%nat)).
    vm_compute. repeat constructor. }
  subst q.
  assert (Ho' : occurrence log_pass 0 (txt "10") (txt "0") (txt "0")).
  { apply (@occurrence_by_finditer log_pass
             (MkMatch 0 29 [txt "10"; txt "0"; txt "0"]));
      [vm_compute; tauto | reflexivity]. }
  destruct Ho as [Hc _], Ho' as [Hc' _].
  destruct (candidate_functional Hc Hc') as (-> & -> & ->).
  split; split; try split;
    first [ left; reflexivity | apply within_default; reflexivity ].
Defined.

(** C8, as stated, fails: the result depends on a setting of the
    interpreter that is no part of the content.  On the same content, an
    interpreter with the default limit of 4300 digits fails, and one whose
    limit was raised to 5000 digits returns a summary. *)
Lemma extraction_depends_on_the_digit_limit :
  extract_summary log_huge
  = inl (ValueError (exceeds_limit_message default_max_str_digits 4301))
  /\ extract_summary_with 5000 log_huge
     = inr (summary_of nines (txt "0") (txt "0")).
Proof.
  split; [exact huge_extract | exact huge_extract_raised].
Qed.



(** C10. The matches are collected by one left-to-right scan: they come in
    textual order and do not overlap, each starts at a whole number (the
    digits are taken greedily), and every occurrence is collected.  A
    substring of the shape that starts strictly inside a match is not a
    match, although it starts further right.  In
    [12 Tests 3 Failures 4 Ignored] the only match starts at offset 0 and
    the extracted tests count is 12; the substring of the shape that starts
    at the second digit, with tests count 2, is not collected. *)
Theorem scan_is_leftmost_nonoverlapping :
  (forall content, StronglySorted before (finditer content))
  /\ (forall content m,
        In m (finditer content) ->
        exists d1 d2 d3,
          occurrence content (m_start m) d1 d2 d3
          /\ m_groups m = [d1; d2; d3])
  /\ (forall content q d1 d2 d3,
        occurrence content q d1 d2 d3 ->
        exists m, In m (finditer content) /\ m_start m = q
                  /\ m_groups m = [d1; d2; d3])
  /\ (forall content m q d1 d2 d3,
        In m (finditer content) -> candidate content q d1 d2 d3 ->
        (m_start m < q < m_end m)%nat ->
        (forall m', In m' (finditer content) -> m_start m' <> q)
        /\ ~ whole_number_at content q)
  /\ finditer log_overlap = [MkMatch 0 29 [txt "12"; txt "3"; txt "4"]]
  /\ extract_summary log_overlap = inr (12, 3, 4)
  /\ candidate log_overlap 1 (txt "2") (txt "3") (txt "4").
Proof.
  assert (Hinner : forall content m q,
             In m (finditer content) -> (m_start m < q < m_end m)%nat ->
             forall m', In m' (finditer content) -> m_start m' <> q).
  { intros content m q Hin Hq m' Hin' Hst.
    pose proof (@finditer_span content m' Hin') as Hspan.
    destruct (@sorted_pair rmatch before (finditer content) m m'
                (finditer_sorted content) Hin Hin')
      as [-> | [Hb | Hb]]; unfold before in *; lia. }
  split; [exact finditer_sorted|].
  split; [exact finditer_occurrence|].
  split; [exact finditer_exact|].
  split; [|split; [reflexivity | split; [reflexivity|]]].
  - intros content m q d1 d2 d3 Hin Hc Hq.
    split; [eapply Hinner; eauto|].
    intros Hw.
    destruct (@finditer_exact content q d1 d2 d3 (conj Hc Hw))
      as (m' & Hin' & Hst & _).
    exact (Hinner content m q Hin Hq m' Hin' Hst).
  - apply candidate_by_match with (rest := []);
      [vm_compute; repeat constructor | reflexivity].
Qed.

Lemma scan_is_leftmost_nonoverlapping_witness :
  (forall m', In m' (finditer log_overlap) -> m_start m' <> 1%nat)
  /\ ~ whole_number_at log_overlap 1.
Proof.
  apply (proj1 (proj2 (proj2 (proj2 scan_is_leftmost_nonoverlapping)))
           log_overlap (MkMatch 0 29 [txt "12"; txt "3"; txt "4"])
           1%nat (txt "2") (txt "3") (txt "4")).
  - vm_compute. tauto.
  - apply candidate_by_match with (rest := []);
      [vm_compute; repeat constructor | reflexivity].
  - simpl. lia.
Defined.

(** * Further properties of the script *)

(** ** Text around a summary *)

Lemma candidate_shift pre post content q d1 d2 d3 :
  candidate content q d1 d2 d3 ->
  candidate (pre ++ content ++ post) (length pre + q) d1 d2 d3.
Proof.
  intros (b & (p & r & -> & <-) & Hs).
  exists b. split; [|assumption].
  exists (pre ++ p), (r ++ post). split.
  - now repeat rewrite <- app_assoc.
  - now rewrite length_app.
Qed.

Lemma candidate_unshift pre content q d1 d2 d3 :
  candidate (pre ++ content) q d1 d2 d3 -> (length pre <= q)%nat ->
  candidate content (q - length pre) d1 d2 d3.
Proof.
  intros (b & (p & r & E & <-) & Hs) Hle.
  apply app_split_left in E; [|assumption].
  destruct E as (mid & -> & ->).
  exists b. split; [|assumption].
  exists mid, r. split; [reflexivity|]. rewrite length_app. lia.
Qed.

Lemma whole_number_shift pre content q :
  whole_number_at content q -> (q = 0%nat -> ends_without_digit pre) ->
  whole_number_at (pre ++ content) (length pre + q).
Proof.
  intros Hw Hpre p c r E Hlen.
  destruct (Nat.lt_ge_cases (length p) (length pre)) as [Hlt | Hge].
  - assert (H : (p ++ [c]) ++ r = pre ++ content)
      by (rewrite <- app_assoc; simpl; congruence).
    apply app_split_left in H; [|rewrite length_app; simpl; lia].
    destruct H as (mid & Hp & _).
    assert (mid = []) as ->.
    { rewrite Hp, !length_app in Hlt. simpl in Hlt.
      rewrite Hp, !length_app in Hlen. simpl in Hlen.
      destruct mid; [reflexivity | simpl in *; lia]. }
    rewrite app_nil_r in Hp. apply (Hpre ltac:(lia) p c Hp).
  - apply app_split_left in E; [|assumption].
    destruct E as (mid & -> & E).
    apply (Hw mid c r E). rewrite length_app in Hlen. lia.
Qed.

Lemma whole_number_unshift pre content q :
  whole_number_at (pre ++ content) q -> (length pre <= q)%nat ->
  whole_number_at content (q - length pre).
Proof.
  intros Hw Hle p c r E Hlen.
  apply (Hw (pre ++ p) c r).
  - rewrite E. now rewrite <- app_assoc.
  - rewrite length_app. lia.
Qed.

(** The last occurrence of a content stays the last one when text that
    does not end with a digit is put before the content. *)
Lemma greatest_after_prefix pre content q d1 d2 d3 :
  ends_without_digit pre ->
  occurrence content q d1 d2 d3 ->
  (forall q' e1 e2 e3, occurrence content q' e1 e2 e3 -> (q' <= q)%nat) ->
  occurrence (pre ++ content) (length pre + q) d1 d2 d3
  /\ (forall q' e1 e2 e3,
        occurrence (pre ++ content) q' e1 e2 e3 ->
        (q' <= length pre + q)%nat).
Proof.
  intros Hpre [Hc Hw] Hmax. split.
  - split.
    + pose proof (@candidate_shift pre [] content q d1 d2 d3 Hc) as H.
      now rewrite app_nil_r in H.
    + apply whole_number_shift; auto.
  - intros q' e1 e2 e3 [Hc' Hw'].
    destruct (Nat.lt_ge_cases q' (length pre)) as [Hlt | Hge]; [lia|].
    assert (Ho : occurrence content (q' - length pre) e1 e2 e3).
    { split; [now apply candidate_unshift | now apply whole_number_unshift]. }
    apply Hmax in Ho. lia.
Qed.

(** Text put before a content whose summary was found leaves the summary as
    it is, unless a digit is glued to the front of the content. *)
Lemma extract_after_prefix pre content x :
  ends_without_digit pre -> extract_summary content = inr x ->
  extract_summary (pre ++ content) = inr x.
Proof.
  intros Hpre Hx. unfold extract_summary in *.
  destruct (extract_summary_cases default_max_str_digits content)
    as [[E _] | (q & d1 & d2 & d3 & Ho & Hmax & E)]; [congruence|].
  rewrite E in Hx. rewrite <- Hx.
  destruct (@greatest_after_prefix pre content q d1 d2 d3 Hpre Ho Hmax)
    as [Ho' Hmax'].
  apply (@extract_of_greatest default_max_str_digits (pre ++ content)
           (length pre + q) d1 d2 d3 Ho' Hmax').
Qed.

Lemma in_split_digit (post : text) :
  (forall c, In c post -> is_digit c = false) ->
  forall p y, post = p ++ y -> stops is_digit y.
Proof.
  intros H p y ->. destruct y as [|c y]; simpl; [exact I|].
  apply H. apply in_or_app. right. now left.
Qed.

(** A summary followed by text without digits is the last occurrence. *)
Lemma greatest_before_digit_free b d1 d2 d3 post :
  shaped b d1 d2 d3 -> (forall c, In c post -> is_digit c = false) ->
  occurrence (b ++ post) 0 d1 d2 d3
  /\ (forall q' e1 e2 e3, occurrence (b ++ post) q' e1 e2 e3 -> (q' <= 0)%nat).
Proof.
  intros Hs Hpost. split.
  - split.
    + exists b. split; [exists [], post; auto | assumption].
    + intros p c r _ Hlen. discriminate Hlen.
  - intros q' e1 e2 e3 [(b' & (p & r & E & Hlen) & Hs') Hw].
    destruct q' as [|q']; [lia | exfalso].
    assert (Hm : match_nodes pattern (b' ++ r) [] <> None)
      by (rewrite (match_pattern_complete r Hs'); discriminate).
    destruct (Nat.lt_ge_cases (length p) (length b)) as [Hlt | Hge].
    + symmetry in E. apply app_split_left in E; [|lia].
      destruct E as (y & Hb & Hy).
      assert (Hyne : y <> [])
        by (intros ->; rewrite app_nil_r in Hb; subst b; lia).
      assert (Hpne : p <> []) by (intros ->; discriminate Hlen).
      rewrite Hy in Hm.
      destruct (@inner_start_after_digit b d1 d2 d3 p y post Hs Hb Hpne Hyne Hm)
        as (p' & c & -> & Hc).
      rewrite (Hw p' c (y ++ post)) in Hc; [discriminate | |].
      * rewrite Hb. now repeat rewrite <- app_assoc.
      * rewrite <- Hlen, length_app. simpl. lia.
    + apply app_split_left in E; [|assumption].
      destruct E as (mid & _ & Hpost').
      apply Hm. apply match_needs_digit.
      apply (@in_split_digit post Hpost mid (b' ++ r) Hpost').
Qed.

(** ** Numbers as written and as printed *)

Lemma digit_cases c :
  is_digit c = true ->
  (c = "0" \/ c = "1" \/ c = "2" \/ c = "3" \/ c = "4"
   \/ c = "5" \/ c = "6" \/ c = "7" \/ c = "8" \/ c = "9")%char.
Proof.
  destruct c as [[|] [|] [|] [|] [|] [|] [|] [|]];
    intros H; try discriminate H; tauto.
Qed.

Lemma digit_value_zero c :
  is_digit c = true -> (digit_value c = 0 <-> c = "0"%char).
Proof.
  intros H. destruct (digit_cases c H) as [-> | [-> | [-> | [-> | [-> |
    [-> | [-> | [-> | [-> | ->]]]]]]]]]; split; intros E;
    try reflexivity; try discriminate E.
Qed.

Lemma decimal_value_zero_iff ds :
  forallb is_digit ds = true ->
  (decimal_value ds = 0 <-> forallb (Ascii.eqb "0") ds = true).
Proof.
  induction ds as [|c ds IH]; intros Hall; [simpl; tauto|].
  simpl in Hall. apply andb_true_iff in Hall. destruct Hall as [Hc Hds].
  specialize (IH Hds).
  pose proof (@digit_value_range c Hc) as Hr.
  pose proof (decimal_value_nonneg ds Hds) as Hn.
  assert (Hp : 0 < 10 ^ Z.of_nat (length ds)) by (apply Z.pow_pos_nonneg; lia).
  cbn [decimal_value forallb]. rewrite andb_true_iff, Ascii.eqb_eq.
  split.
  - intros E. assert (digit_value c = 0) by nia.
    assert (decimal_value ds = 0) by nia.
    split; [symmetry; now apply digit_value_zero | tauto].
  - intros [<- E]. apply IH in E. rewrite E. reflexivity.
Qed.

Ltac eval_digit_value :=
  match goal with
  | |- context [digit_value ?c] =>
      let v := eval vm_compute in (digit_value c) in
      change (digit_value c) with v
  end.

Lemma horner_acc : forall ds u acc,
  NilEmpty.uint_of_string (string_of_list_ascii ds) = Some u ->
  Z.pos (Pos.of_uint_acc u acc)
  = fold_left (fun a c => 10 * a + digit_value c) ds (Z.pos acc).
Proof.
  induction ds as [|c ds IH];
    cbn [fold_left string_of_list_ascii NilEmpty.uint_of_string];
    intros u acc H.
  - inversion H; subst. reflexivity.
  - destruct (NilEmpty.uint_of_string (string_of_list_ascii ds)) as [u'|] eqn:E;
      [|discriminate H].
    apply uint_of_char_spec in H.
    destruct H as [[-> ->] | [[-> ->] | [[-> ->] | [[-> ->] | [[-> ->] |
      [[-> ->] | [[-> ->] | [[-> ->] | [[-> ->] | [-> ->]]]]]]]]]];
      cbn [Pos.of_uint_acc]; rewrite (IH u' _ eq_refl); f_equal;
      eval_digit_value; lia.
Qed.

Lemma horner_uint : forall ds u,
  NilEmpty.uint_of_string (string_of_list_ascii ds) = Some u ->
  Z.of_uint u = fold_left (fun a c => 10 * a + digit_value c) ds 0.
Proof.
  induction ds as [|c ds IH];
    cbn [fold_left string_of_list_ascii NilEmpty.uint_of_string];
    intros u H.
  - inversion H; subst. reflexivity.
  - destruct (NilEmpty.uint_of_string (string_of_list_ascii ds)) as [u'|] eqn:E;
      [|discriminate H].
    apply uint_of_char_spec in H.
    destruct H as [[-> ->] | [[-> ->] | [[-> ->] | [[-> ->] | [[-> ->] |
      [[-> ->] | [[-> ->] | [[-> ->] | [[-> ->] | [-> ->]]]]]]]]]];
      eval_digit_value; unfold Z.of_uint; cbn [Pos.of_uint Z.of_N];
      try (rewrite (horner_acc ds _ E); reflexivity).
    apply (IH u' eq_refl).
Qed.

Lemma digits_have_uint ds :
  forallb is_digit ds = true ->
  exists u, NilEmpty.uint_of_string (string_of_list_ascii ds) = Some u.
Proof.
  induction ds as [|c ds IH]; simpl; intros H; [eauto|].
  apply andb_true_iff in H. destruct H as [Hc Hds].
  destruct (IH Hds) as (u & ->).
  destruct (digit_cases c Hc) as [-> | [-> | [-> | [-> | [-> |
    [-> | [-> | [-> | [-> | ->]]]]]]]]]; simpl; eauto.
Qed.

Lemma unorm_strip_zeros : forall ds u,
  ds <> [] ->
  NilEmpty.uint_of_string (string_of_list_ascii ds) = Some u ->
  NilZero.string_of_uint (Decimal.unorm u)
  = string_of_list_ascii (strip_zeros ds).
Proof.
  induction ds as [|c ds IH]; intros u Hne H; [congruence|].
  simpl in H.
  destruct (NilEmpty.uint_of_string (string_of_list_ascii ds)) as [u'|] eqn:E;
    [|discriminate H].
  assert (Hsus : NilEmpty.string_of_uint u' = string_of_list_ascii ds)
    by (now apply NilEmpty.sus).
  apply uint_of_char_spec in H.
  destruct H as [[-> ->] | H].
  - destruct ds as [|c' ds].
    + simpl in E. inversion E; subst. reflexivity.
    + cbn [strip_zeros]. rewrite Ascii.eqb_refl.
      change (Decimal.unorm (Decimal.D0 u')) with (Decimal.unorm u').
      apply IH; [discriminate | reflexivity].
  - assert (Hs : strip_zeros (c :: ds) = c :: ds).
    { destruct ds as [|c' ds]; [reflexivity|]. cbn [strip_zeros].
      destruct H as [[-> _] | [[-> _] | [[-> _] | [[-> _] | [[-> _] |
        [[-> _] | [[-> _] | [[-> _] | [-> _]]]]]]]]]; reflexivity. }
    rewrite Hs.
    destruct H as [[-> ->] | [[-> ->] | [[-> ->] | [[-> ->] | [[-> ->] |
      [[-> ->] | [[-> ->] | [[-> ->] | [-> ->]]]]]]]]];
      simpl; now rewrite Hsus.
Qed.

(** [str(int(ds))] is [ds] without its leading zeros. *)
Lemma str_of_decimal_value ds :
  run_of is_digit ds ->
  str_of_int (decimal_value ds) = string_of_list_ascii (strip_zeros ds).
Proof.
  intros [Hne Hall].
  destruct (digits_have_uint ds Hall) as (u & Hu).
  assert (Hv : decimal_value ds = Z.of_int (Decimal.Pos u)).
  { simpl. rewrite (horner_uint ds Hu), horner_decimal. lia. }
  unfold str_of_int. rewrite Hv, DecimalZ.to_of. simpl.
  now apply unorm_strip_zeros.
Qed.

(** ** Helpers for concrete inputs *)

Lemma ends_without_digit_by_last pre :
  stops is_digit (rev pre) -> ends_without_digit pre.
Proof.
  intros H p c ->. rewrite rev_app_distr in H. exact H.
Qed.

Lemma shaped_by_match b d1 d2 d3 :
  match_nodes pattern b [] = Some ([d1; d2; d3], []) -> shaped b d1 d2 d3.
Proof.
  intros H. apply match_pattern_sound in H.
  destruct H as (b' & e1 & e2 & e3 & -> & Hs & Hg).
  inversion Hg; subst. now rewrite app_nil_r.
Qed.

Lemma no_digit_by_forallb (t : text) :
  forallb (fun c => negb (is_digit c)) t = true ->
  forall c, In c t -> is_digit c = false.
Proof.
  intros H c Hin. rewrite forallb_forall in H. apply H in Hin.
  now apply negb_true_iff.
Qed.

Lemma greatest_by_finditer content q :
  Forall (fun m => (m_start m <= q)%nat) (finditer content) ->
  forall q' e1 e2 e3, occurrence content q' e1 e2 e3 -> (q' <= q)%nat.
Proof.
  intros H. apply (@occurrence_bound content (fun n => (n <= q)%nat) H).
Qed.

(** ** Lengths and keywords *)

Lemma run_length cls t : run_of cls t -> (1 <= length t)%nat.
Proof. intros [Hne _]. destruct t; [congruence | simpl; lia]. Qed.

Lemma shaped_min_length b d1 d2 d3 :
  shaped b d1 d2 d3 -> (min_summary_length <= length b)%nat.
Proof.
  intros (w1 & w2 & w3 & w4 & w5 & -> & Hd1 & Hd2 & Hd3
          & Hw1 & Hw2 & Hw3 & Hw4 & Hw5).
  apply run_length in Hd1, Hd2, Hd3, Hw1, Hw2, Hw3, Hw4, Hw5.
  repeat rewrite length_app.
  change (length (txt "Tests")) with 5%nat.
  change (length (txt "Failures")) with 8%nat.
  change (length (txt "Ignored")) with 7%nat.
  unfold min_summary_length. lia.
Qed.

Lemma candidate_length content q d1 d2 d3 :
  candidate content q d1 d2 d3 ->
  (q + min_summary_length <= length content)%nat.
Proof.
  intros (b & (pre & post & -> & <-) & Hs).
  apply shaped_min_length in Hs. rewrite !length_app. lia.
Qed.

Lemma candidate_keywords content q d1 d2 d3 :
  candidate content q d1 d2 d3 ->
  has_keyword "Tests" content /\ has_keyword "Failures" content
  /\ has_keyword "Ignored" content.
Proof.
  intros (b & (pre & post & -> & _) & (w1 & w2 & w3 & w4 & w5 & -> & _)).
  repeat split.
  - exists (pre ++ d1 ++ w1),
      (w2 ++ d2 ++ w3 ++ txt "Failures" ++ w4 ++ d3 ++ w5 ++ txt "Ignored"
          ++ post).
    now repeat rewrite <- app_assoc.
  - exists (pre ++ d1 ++ w1 ++ txt "Tests" ++ w2 ++ d2 ++ w3),
      (w4 ++ d3 ++ w5 ++ txt "Ignored" ++ post).
    now repeat rewrite <- app_assoc.
  - exists (pre ++ d1 ++ w1 ++ txt "Tests" ++ w2 ++ d2 ++ w3
                ++ txt "Failures" ++ w4 ++ d3 ++ w5), post.
    now repeat rewrite <- app_assoc.
Qed.

(** ** The driver on a readable file *)

Lemma main_on_occurrence fs argv content q d1 d2 d3 :
  length argv = 2%nat -> fs (path_arg argv) = File content ->
  occurrence content q d1 d2 d3 ->
  (forall q' e1 e2 e3, occurrence content q' e1 e2 e3 -> (q' <= q)%nat) ->
  (length d1 <= default_max_str_digits)%nat ->
  (length d2 <= default_max_str_digits)%nat ->
  (length d3 <= default_max_str_digits)%nat ->
  main fs argv =
  MkRun (print (report (decimal_value d1) (decimal_value d2)
                       (decimal_value d3))
               (banner (decimal_value d2)))
        "" (if decimal_value d2 =? 0 then 0 else 1)
        [EvExists (path_arg argv); EvReadText (path_arg argv)].
Proof.
  intros Hlen Hfs Ho Hmax L1 L2 L3.
  apply (@main_completed fs argv content); auto.
  unfold extract_summary.
  rewrite (@extract_of_greatest default_max_str_digits content q d1 d2 d3
             Ho Hmax).
  destruct Ho as [Hc _].
  destruct (@candidate_runs content q d1 d2 d3 Hc) as (R1 & R2 & R3).
  apply to_ints_fits; auto; right; assumption.
Qed.

Lemma exit_code_cases fs argv :
  (length argv <> 2%nat /\ exit_code (main fs argv) = 2)
  \/ (length argv = 2%nat /\ fs (path_arg argv) = Missing
      /\ exit_code (main fs argv) = 2)
  \/ (length argv = 2%nat /\ fs (path_arg argv) <> Missing
      /\ (forall content t i,
            fs (path_arg argv) = File content ->
            extract_summary content <> inr (t, 0, i))
      /\ exit_code (main fs argv) = 1)
  \/ (length argv = 2%nat
      /\ (exists content t i,
            fs (path_arg argv) = File content
            /\ extract_summary content = inr (t, 0, i))
      /\ exit_code (main fs argv) = 0).
Proof.
  destruct (Nat.eq_dec (length argv) 2) as [Hlen | Hlen].
  2: { left. split; [assumption|]. now rewrite main_invalid. }
  right. destruct (fs (path_arg argv)) eqn:Hfs.
  - left. split; [assumption|]. split; [reflexivity|].
    now rewrite (@main_missing fs argv Hlen Hfs).
  - right. left. split; [assumption|]. split; [discriminate|].
    split; [intros c t i Hc; discriminate Hc|].
    now rewrite (@main_unreadable fs argv msg Hlen Hfs).
  - right. left. split; [assumption|]. split; [discriminate|].
    split; [intros c t i Hc; discriminate Hc|].
    now rewrite (@main_undecodable fs argv msg Hlen Hfs).
  - destruct (extract_summary content) as [e | [[t f] i]] eqn:E.
    + right. left. split; [assumption|]. split; [discriminate|]. split.
      * intros c t i Hc. inversion Hc; subst. rewrite E. discriminate.
      * destruct (@extract_summary_error default_max_str_digits content e E)
          as (msg & ->).
        now rewrite (@main_value_error fs argv content msg Hlen Hfs E).
    + rewrite (@main_completed fs argv content t f i Hlen Hfs E).
      destruct (Z.eqb_spec f 0) as [-> | Hnz].
      * right. right. split; [assumption|]. split; [eauto | reflexivity].
      * right. left. split; [assumption|]. split; [discriminate|].
        split; [|reflexivity].
        intros c t' i' Hc. inversion Hc; subst.
        rewrite E. intros H. inversion H. congruence.
Qed.

(** The file operations of a run, case by case. *)
Lemma main_trace_cases fs argv :
  (length argv <> 2%nat /\ fs_trace (main fs argv) = [])
  \/ (length argv = 2%nat /\ fs (path_arg argv) = Missing
      /\ fs_trace (main fs argv) = [EvExists (path_arg argv)])
  \/ (length argv = 2%nat /\ fs (path_arg argv) <> Missing
      /\ fs_trace (main fs argv)
         = [EvExists (path_arg argv); EvReadText (path_arg argv)]).
Proof.
  destruct (Nat.eq_dec (length argv) 2) as [Hlen | Hlen].
  2: { left. split; [assumption|]. now rewrite main_invalid. }
  right. destruct (fs (path_arg argv)) eqn:Hfs.
  - left. split; [assumption|]. split; [reflexivity|].
    now rewrite (@main_missing fs argv Hlen Hfs).
  - right. split; [assumption|]. split; [discriminate|].
    now rewrite (@main_unreadable fs argv msg Hlen Hfs).
  - right. split; [assumption|]. split; [discriminate|].
    now rewrite (@main_undecodable fs argv msg Hlen Hfs).
  - right. split; [assumption|]. split; [discriminate|].
    destruct (extract_summary content) as [e | [[t f] i]] eqn:E.
    + destruct (@extract_summary_error default_max_str_digits content e E)
        as (msg & ->).
      now rewrite (@main_value_error fs argv content msg Hlen Hfs E).
    + now rewrite (@main_completed fs argv content t f i Hlen Hfs E).
Qed.

(** * Further theorems *)

(** X1. Text put in front of a log whose summary was found does not change
    the extracted summary, provided that text does not end with a digit
    (which would lengthen the first number of the log). *)
Theorem noise_before_summary_is_ignored pre content x :
  ends_without_digit pre -> extract_summary content = inr x ->
  extract_summary (pre ++ content) = inr x.
Proof. apply extract_after_prefix. Qed.

Lemma noise_before_summary_is_ignored_witness :
  extract_summary (log_after_boot ++ log_overlap) = inr (12, 3, 4).
Proof.
  apply (@noise_before_summary_is_ignored log_after_boot log_overlap (12, 3, 4)).
  - apply ends_without_digit_by_last. reflexivity.
  - reflexivity.
Defined.

(** X2. A summary line whose three numbers have at most 4300 digits each,
    followed only by text without digits, is the one extracted, whatever
    comes before it (not ending with a digit) and whatever earlier
    summaries that text holds. *)
Theorem summary_before_digit_free_text pre b post d1 d2 d3 :
  shaped b d1 d2 d3 -> ends_without_digit pre ->
  forallb (fun c => negb (is_digit c)) post = true ->
  (length d1 <= default_max_str_digits)%nat ->
  (length d2 <= default_max_str_digits)%nat ->
  (length d3 <= default_max_str_digits)%nat ->
  extract_summary (pre ++ b ++ post) = inr (summary_of d1 d2 d3).
Proof.
  intros Hs Hpre Hpost L1 L2 L3. apply extract_after_prefix; [assumption|].
  destruct (@greatest_before_digit_free b d1 d2 d3 post Hs
              (no_digit_by_forallb post Hpost)) as [Ho Hmax].
  unfold extract_summary.
  rewrite (@extract_of_greatest default_max_str_digits (b ++ post) 0
             d1 d2 d3 Ho Hmax).
  destruct (@shaped_runs b d1 d2 d3 Hs) as (R1 & R2 & R3).
  apply to_ints_fits; auto; right; assumption.
Qed.

Lemma summary_before_digit_free_text_witness :
  extract_summary (log_two ++ log_fail ++ txt "FAIL")
  = inr (summary_of (txt "10") (txt "2") (txt "1")).
Proof.
  apply (@summary_before_digit_free_text log_two log_fail (txt "FAIL")).
  - apply shaped_by_match. reflexivity.
  - apply ends_without_digit_by_last. reflexivity.
  - reflexivity.
  - apply Nat.leb_le. reflexivity.
  - apply Nat.leb_le. reflexivity.
  - apply Nat.leb_le. reflexivity.
Defined.

(** X3. Adding text around a content never removes its summary lines:
    when [findall] finds a match in a fragment of a log it finds one in the
    log, and the log is not reported as lacking a summary. *)
Theorem occurrence_survives_added_text pre mid post :
  findall mid <> [] ->
  findall (pre ++ mid ++ post) <> []
  /\ extract_summary (pre ++ mid ++ post) <> inl summary_not_found.
Proof.
  intros Hne.
  assert (Hc : exists q d1 d2 d3, candidate mid q d1 d2 d3).
  { destruct (finditer mid) as [|m ms] eqn:E.
    - exfalso. apply Hne. unfold findall. now rewrite E.
    - destruct (@finditer_candidate mid m) as (d1 & d2 & d3 & Hc & _);
        [rewrite E; now left | eauto]. }
  destruct Hc as (q & d1 & d2 & d3 & Hc).
  pose proof (@candidate_shift pre post mid q d1 d2 d3 Hc) as Hc'.
  split.
  - intros E. apply (proj1 (findall_nil_iff _) E _ _ _ _ Hc').
  - intros E. apply extract_summary_inl in E.
    destruct E as [[_ Hno] | (q' & e1 & e2 & e3 & d & _ & _ & _ & _ & E)].
    + eapply Hno; eauto.
    + discriminate E.
Qed.

Lemma occurrence_survives_added_text_witness :
  findall (nines ++ log_pass ++ txt "8") <> []
  /\ extract_summary (nines ++ log_pass ++ txt "8") <> inl summary_not_found.
Proof.
  apply (@occurrence_survives_added_text nines log_pass (txt "8")).
  discriminate.
Defined.

(** X4. A content shorter than the shortest summary (28 characters) has no
    summary: extraction fails with the missing-summary error. *)
Theorem short_content_has_no_summary content :
  (length content < min_summary_length)%nat ->
  extract_summary content = inl summary_not_found.
Proof.
  intros Hlen.
  destruct (extract_summary_cases default_max_str_digits content)
    as [[E _] | (q & d1 & d2 & d3 & [Hc _] & _)]; [assumption|].
  apply candidate_length in Hc. lia.
Qed.

Lemma short_content_has_no_summary_witness :
  extract_summary (txt "9 Tests 0 Failures 0 Ignore") = inl summary_not_found.
Proof.
  apply (@short_content_has_no_summary (txt "9 Tests 0 Failures 0 Ignore")).
  vm_compute. repeat constructor.
Defined.

(** X5. A content from which a summary is extracted holds the three
    keywords as they are written; a log without one of them (in another
    case, say) gives no summary. *)
Theorem summary_needs_the_keywords content x :
  extract_summary content = inr x ->
  has_keyword "Tests" content /\ has_keyword "Failures" content
  /\ has_keyword "Ignored" content.
Proof.
  intros Hx. apply extract_summary_found in Hx.
  destruct Hx as (q & d1 & d2 & d3 & [Hc _]).
  eapply candidate_keywords; eauto.
Qed.

Lemma summary_needs_the_keywords_witness :
  has_keyword "Tests" log_two /\ has_keyword "Failures" log_two
  /\ has_keyword "Ignored" log_two.
Proof.
  apply (@summary_needs_the_keywords log_two (5, 0, 0)). reflexivity.
Defined.

(** X6. The counts the extractor returns are never negative. *)
Theorem counts_are_not_negative content t f i :
  extract_summary content = inr (t, f, i) -> 0 <= t /\ 0 <= f /\ 0 <= i.
Proof. apply extract_summary_nonneg. Qed.

Lemma counts_are_not_negative_witness : 0 <= 10 /\ 0 <= 2 /\ 0 <= 1.
Proof.
  apply (@counts_are_not_negative log_fail 10 2 1). reflexivity.
Defined.

(** X7. For a log of code points below 256 whose last occurrence has
    numbers of at most 4300 digits each, the report echoes those numbers as
    they are written in the log, without their leading zeros:
    [str(int(d))] is [d] stripped of leading zeros. *)
Theorem report_echoes_the_summary fs argv content q d1 d2 d3 :
  length argv = 2%nat -> fs (path_arg argv) = File content ->
  occurrence content q d1 d2 d3 ->
  (forall q' e1 e2 e3, occurrence content q' e1 e2 e3 -> (q' <= q)%nat) ->
  (length d1 <= default_max_str_digits)%nat ->
  (length d2 <= default_max_str_digits)%nat ->
  (length d3 <= default_max_str_digits)%nat ->
  stdout (main fs argv)
  = print
      (print
         (print
            (print
               (print (print "" "Test Results:")
                  ("  Total Tests: " ++ string_of_list_ascii (strip_zeros d1)))
               ("  Failures: " ++ string_of_list_ascii (strip_zeros d2)))
            ("  Ignored: " ++ string_of_list_ascii (strip_zeros d3)))
         "")
      (banner (decimal_value d2)).
Proof.
  intros Hlen Hfs Ho Hmax L1 L2 L3.
  rewrite (@main_on_occurrence fs argv content q d1 d2 d3 Hlen Hfs Ho Hmax
             L1 L2 L3).
  destruct Ho as [(b & _ & Hs) _].
  destruct Hs as (w1 & w2 & w3 & w4 & w5 & _ & Hd1 & Hd2 & Hd3 & _).
  cbn [stdout]. unfold report.
  now rewrite (str_of_decimal_value Hd1), (str_of_decimal_value Hd2),
    (str_of_decimal_value Hd3).
Qed.

Lemma report_echoes_the_summary_witness :
  stdout (main zeros_fs [prog; "qemu.log"]%string)
  = print
      (print
         (print
            (print
               (print (print "" "Test Results:")
                  ("  Total Tests: "
                     ++ string_of_list_ascii (strip_zeros (txt "007"))))
               ("  Failures: "
                  ++ string_of_list_ascii (strip_zeros (txt "00"))))
            ("  Ignored: " ++ string_of_list_ascii (strip_zeros (txt "1"))))
         "")
      (banner (decimal_value (txt "00"))).
Proof.
  apply (@report_echoes_the_summary zeros_fs [prog; "qemu.log"]%string
           log_zeros 0 (txt "007") (txt "00") (txt "1")).
  - reflexivity.
  - reflexivity.
  - apply (@occurrence_by_finditer log_zeros
             (MkMatch 0 31 [txt "007"; txt "00"; txt "1"]));
      [vm_compute; tauto | reflexivity].
  - apply greatest_by_finditer. vm_compute. repeat constructor.
  - apply Nat.leb_le. reflexivity.
  - apply Nat.leb_le. reflexivity.
  - apply Nat.leb_le. reflexivity.
Defined.

(** X8. On a readable file of code points below 256 whose last occurrence
    has numbers of at most 4300 digits each, the exit code is 0 exactly
    when every digit of the failures count of that occurrence is [0], and 1
    otherwise; the values of the tests and ignored counts have no part in
    it. *)
Theorem exit_zero_iff_failures_all_zero fs argv content q d1 d2 d3 :
  length argv = 2%nat -> fs (path_arg argv) = File content ->
  occurrence content q d1 d2 d3 ->
  (forall q' e1 e2 e3, occurrence content q' e1 e2 e3 -> (q' <= q)%nat) ->
  (length d1 <= default_max_str_digits)%nat ->
  (length d2 <= default_max_str_digits)%nat ->
  (length d3 <= default_max_str_digits)%nat ->
  (exit_code (main fs argv) = 0 <-> forallb (Ascii.eqb "0") d2 = true)
  /\ (exit_code (main fs argv) = 1 <-> forallb (Ascii.eqb "0") d2 = false).
Proof.
  intros Hlen Hfs Ho Hmax L1 L2 L3.
  rewrite (@main_on_occurrence fs argv content q d1 d2 d3 Hlen Hfs Ho Hmax
             L1 L2 L3).
  destruct Ho as [(b & _ & Hs) _].
  destruct Hs as (w1 & w2 & w3 & w4 & w5 & _ & _ & [_ Hd2] & _).
  pose proof (decimal_value_zero_iff d2 Hd2) as Hz.
  cbn [exit_code].
  destruct (Z.eqb_spec (decimal_value d2) 0) as [E | E].
  - apply Hz in E. rewrite E. repeat split; auto; discriminate.
  - destruct (forallb (Ascii.eqb "0") d2).
    + exfalso. apply E, Hz. reflexivity.
    + repeat split; auto; discriminate.
Qed.

Lemma exit_zero_iff_failures_all_zero_witness :
  (exit_code (main zeros_fs [prog; "qemu.log"]%string) = 0
   <-> forallb (Ascii.eqb "0") (txt "00") = true)
  /\ (exit_code (main zeros_fs [prog; "qemu.log"]%string) = 1
      <-> forallb (Ascii.eqb "0") (txt "00") = false).
Proof.
  apply (@exit_zero_iff_failures_all_zero zeros_fs [prog; "qemu.log"]%string
           log_zeros 0 (txt "007") (txt "00") (txt "1")).
  - reflexivity.
  - reflexivity.
  - apply (@occurrence_by_finditer log_zeros
             (MkMatch 0 31 [txt "007"; txt "00"; txt "1"]));
      [vm_compute; tauto | reflexivity].
  - apply greatest_by_finditer. vm_compute. repeat constructor.
  - apply Nat.leb_le. reflexivity.
  - apply Nat.leb_le. reflexivity.
  - apply Nat.leb_le. reflexivity.
Defined.

(** X9. The process exits with code 0 only after it has read a file and
    extracted from it a summary whose failures count is 0, and always
    then. *)
Theorem exit_zero_iff_summary_without_failures fs argv :
  exit_code (main fs argv) = 0
  <-> length argv = 2%nat
      /\ exists content t i,
           fs (path_arg argv) = File content
           /\ extract_summary content = inr (t, 0, i).
Proof.
  destruct (exit_code_cases fs argv)
    as [[Hlen E] | [(Hlen & Hfs & E) | [(Hlen & Hfs & Hno & E)
                                        | (Hlen & Hex & E)]]];
    rewrite E; split; try discriminate; auto.
  - intros [Hlen' _]. contradiction.
  - intros [_ (content & t & i & Hc & _)]. congruence.
  - intros [_ (content & t & i & Hc & Hx)]. exfalso. eapply Hno; eauto.
Qed.


(** X11. A run depends on the file system through the named path only:
    two file systems that agree on it give the same output, exit code and
    file operations. *)
Theorem only_the_named_file_matters fs fs' argv :
  fs (path_arg argv) = fs' (path_arg argv) -> main fs argv = main fs' argv.
Proof.
  intros H. unfold main, parse_unity_output, path_exists, read_text.
  fold (path_arg argv). now rewrite H.
Qed.

Lemma only_the_named_file_matters_witness :
  main sample_fs [prog; "pass.log"]%string
  = main other_fs [prog; "pass.log"]%string.
Proof.
  apply (@only_the_named_file_matters sample_fs other_fs
           [prog; "pass.log"]%string).
  reflexivity.
Defined.

(** X12. The file operations of a run: the only path touched is the one
    given as argument, nothing is read from a path that does not exist,
    and a read comes after the existence test, once. *)
Theorem file_operations_of_a_run fs argv :
  (forall p, In (EvReadText p) (fs_trace (main fs argv)) ->
             p = path_arg argv /\ fs p <> Missing)
  /\ (forall p, In (EvExists p) (fs_trace (main fs argv)) -> p = path_arg argv)
  /\ (fs_trace (main fs argv) = []
      \/ fs_trace (main fs argv) = [EvExists (path_arg argv)]
      \/ fs_trace (main fs argv)
         = [EvExists (path_arg argv); EvReadText (path_arg argv)]).
Proof.
  destruct (main_trace_cases fs argv)
    as [[Hlen ->] | [(Hlen & Hfs & ->) | (Hlen & Hfs & ->)]].
  - split; [|split; [|auto]]; intros p [].
  - split; [|split; [|auto]].
    + intros p [Hp | []]. discriminate Hp.
    + intros p [Hp | []]. inversion Hp. reflexivity.
  - split; [|split; [|auto]].
    + intros p [Hp | [Hp | []]]; inversion Hp; subst. auto.
    + intros p [Hp | [Hp | []]]; inversion Hp; reflexivity.
Qed.
